(** * The loop-splitter inlining pass (src/compiler/LoopSplitterInlining.cpp)

    A shallow embedding of the pass that inlines every call chain leading
    to a barrier ("splitter") into a kernel, and lowers the barrier calls
    themselves to the canonical barrier intrinsic.

    - A function is identified by its name (LLVM keeps the names of the
      functions of a module unique); a [SmallPtrSet<Function *>] is a
      [gset string].
    - A module maps a name to the basic blocks of the function; a name
      without an entry, or with no blocks, is a declaration.
    - A basic block is the list of its instructions; a block of a function
      is identified by its position in the block list of the function, and
      the blocks that inlining creates are put at the end of the list, so
      that a position names the same block throughout, as a pointer does.
    - The [do ... while (LastChanged)] loops and the recursion of
      [fillTransitiveSplitterCallers] need not terminate on a recursive
      call graph: they take fuel, and [None] is "out of fuel". *)

From stdpp Require Import base option list strings gmap.

(** ** Instructions, blocks, modules *)

(** [Call None] is a [CallBase] whose [getCalledFunction()] is null (an
    indirect call); [Other op] is any instruction that is not a call. *)
Inductive Instruction : Type :=
| Call (callee : option string)
| Other (op : nat).

#[global] Instance Instruction_eq_dec : EqDecision Instruction.
Proof. solve_decision. Defined.

Abbreviation BasicBlock := (list Instruction) (only parsing).
Abbreviation Body := (list (list Instruction)) (only parsing).
Abbreviation Module := (gmap string (list (list Instruction))) (only parsing).

(** [F.begin() .. F.end()]: the blocks of a function (none for a declaration). *)
Definition getBody (M : Module) (F : string) : Body := default [] (M !! F).

(** The instructions of block [b] of function [F]. *)
Definition getBlock (M : Module) (F : string) (b : nat) : BasicBlock :=
  default [] (getBody M F !! b).

(** The targets of the direct calls of a list of instructions, in order. *)
Fixpoint callees (insts : BasicBlock) : list string :=
  match insts with
  | [] => []
  | Call (Some g) :: rest => g :: callees rest
  | _ :: rest => callees rest
  end.

(** ** The annotation oracle *)

Record SplitterAnnotationInfo : Type := {
  isKernelFunc : string → bool;
  isSplitterFunc : string → bool
}.

(** ** Loops *)

(** A loop is known to the pass by its blocks, [L->getBlocks()], header first. *)
Record Loop : Type := { getBlocks : list nat }.

(** What the new pass manager is told: either everything is preserved, or
    only the splitter annotation analysis. *)
Inductive PreservedAnalyses : Type :=
| PreservedAll
| PreservedSplitterAnnotationAnalysis.

Section Pass.

Set Default Proof Using "Type".

(** The name constant of SplitterAnnotationAnalysis.hpp, a header that this
    development does not embed: a parameter. *)
Variable BarrierIntrinsicName : string.

(** The loop classifier and the analyses of the host compiler, consumed as
    queries on the blocks of the function under transformation:
    [getSingleWorkItemLoop (LI)] where [LI] is the loop info of the
    function, [isWorkItemLoop (L)], and [updateDtAndLi (LI, DT, B, F)],
    which recomputes both analyses of [F] and returns the loop of [B]. *)
Variable getSingleWorkItemLoop : Body → option Loop.
Variable isWorkItemLoop : Loop → bool.
Variable updateDtAndLi : Body → nat → Loop.

(** ** Helpers of IRUtils *)

(** Modelled from the spec: [utils::checkedInlineFunction] (IRUtils.cpp is
    not among the embedded sources).  "Inline the call body into the caller at
    the call site (replacing the call instruction with the callee's control
    flow and wiring)"; "a call to a function that is itself the canonical
    barrier intrinsic is never inlined"; a declaration has no body to
    inline.  The call site is instruction [length pre] of block [b] of [F],
    the block being [pre ++ Call (Some g) :: post].  A callee of one block
    is spliced into the block; with more blocks the block is split at the
    call: it keeps [pre] and the entry block of the callee, and the other
    blocks of the callee and the rest [post] of the split block become new
    blocks at the end of [F].  [None] is the [false] of the source: nothing
    inlined. *)
Definition checkedInlineFunction (M : Module) (F : string) (b : nat)
    (pre post : BasicBlock) (g : string) : option Module :=
  if bool_decide (g = BarrierIntrinsicName) then None
  else match getBody M g with
       | [] => None
       | [c] => Some (<[F := <[b := pre ++ c ++ post]> (getBody M F)]> M)
       | c :: cs =>
           Some (<[F := <[b := pre ++ c]> (getBody M F) ++ cs ++ [post]]> M)
       end.

(** Modelled from the spec: [utils::createBarrier (InsertBefore, SAA)]
    (IRUtils.cpp is not among the embedded sources): "replace the call with a
    canonical barrier-intrinsic call at the same program point".  The call
    to the barrier intrinsic is inserted in block [b] of [F] in front of
    the instructions [rest], the first of which is [InsertBefore]; the
    oracle is read only. *)
Definition createBarrier (M : Module) (F : string) (b : nat)
    (pre rest : BasicBlock) : Module :=
  <[F := <[b := pre ++ Call (Some BarrierIntrinsicName) :: rest]> (getBody M F)]> M.

(** [I->eraseFromParent ()], for instruction [i] of block [b] of [F]. *)
Definition eraseFromParent (M : Module) (F : string) (b i : nat) : Module :=
  <[F := <[b := delete i (getBlock M F b)]> (getBody M F)]> M.

(** ** inlineCallsInBasicBlock (lines 44-76) *)

(** One run of [for (auto &I : BB)]: [pre] are the instructions already
    passed, [rest] those to come.  [Some M'] is a [break] with
    [LastChanged = true]; [None] is the end of the block with
    [LastChanged = false]. *)
Fixpoint scanBlock (M : Module) (F : string) (b : nat)
    (SplitterCallers : gset string) (SAA : SplitterAnnotationInfo)
    (pre rest : BasicBlock) : option Module :=
  match rest with
  | [] => None
  | Call (Some g) :: post =>
      if bool_decide (g ∈ SplitterCallers) && negb (isSplitterFunc SAA g) then
        match checkedInlineFunction M F b pre post g with
        | Some M' => Some M'
        | None => scanBlock M F b SplitterCallers SAA (pre ++ [Call (Some g)]) post
        end
      else if isSplitterFunc SAA g && negb (bool_decide (g = BarrierIntrinsicName)) then
        Some (eraseFromParent (createBarrier M F b pre (Call (Some g) :: post))
                F b (S (length pre)))
      else scanBlock M F b SplitterCallers SAA (pre ++ [Call (Some g)]) post
  | Ins :: post => scanBlock M F b SplitterCallers SAA (pre ++ [Ins]) post
  end.

Fixpoint inlineCallsInBasicBlock (fuel : nat) (M : Module) (F : string) (b : nat)
    (SplitterCallers : gset string) (SAA : SplitterAnnotationInfo)
    : option (bool * Module) :=
  match fuel with
  | 0 => None
  | S fuel' =>
      match scanBlock M F b SplitterCallers SAA [] (getBlock M F b) with
      | None => Some (false, M)
      | Some M' =>
          '(_, M'') ← inlineCallsInBasicBlock fuel' M' F b SplitterCallers SAA;
          Some (true, M'')
      end
  end.

(** The [for] loop over blocks of lines 90-94 and 114-119: the blocks are
    tried in order, up to the first one that changes. *)
Fixpoint firstChangedBlock (inl : Module → nat → option (bool * Module))
    (M : Module) (bs : list nat) : option (bool * Module) :=
  match bs with
  | [] => Some (false, M)
  | b :: bs' =>
      '(LastChanged, M') ← inl M b;
      if LastChanged : bool then Some (true, M') else firstChangedBlock inl M' bs'
  end.

(** ** inlineCallsInLoop (lines 80-102) *)

(** The [do ... while (LastChanged)] of lines 88-99, [B] being the first
    block of the loop that the function was called with. *)
Fixpoint inlineCallsInLoop_from (fuel : nat) (M : Module) (F : string) (B : nat) (L : Loop)
    (SplitterCallers : gset string) (SAA : SplitterAnnotationInfo)
    : option (bool * Module * Loop) :=
  match fuel with
  | 0 => None
  | S fuel' =>
      '(LastChanged, M') ←
        firstChangedBlock
          (λ M b, inlineCallsInBasicBlock fuel' M F b SplitterCallers SAA)
          M (getBlocks L);
      if LastChanged : bool then
        '(_, M'', L'') ←
          inlineCallsInLoop_from fuel' M' F B (updateDtAndLi (getBody M' F) B)
            SplitterCallers SAA;
        Some (true, M'', L'')
      else Some (false, M', L)
  end.

(** [L] is passed by reference: the loop as last recomputed is returned
    with the result. *)
Definition inlineCallsInLoop (fuel : nat) (M : Module) (F : string) (L : Loop)
    (SplitterCallers : gset string) (SAA : SplitterAnnotationInfo)
    : option (bool * Module * Loop) :=
  inlineCallsInLoop_from fuel M F (hd 0 (getBlocks L)) L SplitterCallers SAA.

(** ** inlineCallsInFunction (lines 106-123) *)
Fixpoint inlineCallsInFunction (fuel : nat) (M : Module) (F : string)
    (SplitterCallers : gset string) (SAA : SplitterAnnotationInfo)
    : option (bool * Module) :=
  match fuel with
  | 0 => None
  | S fuel' =>
      '(LastChanged, M') ←
        firstChangedBlock
          (λ M b, inlineCallsInBasicBlock fuel' M F b SplitterCallers SAA)
          M (seq 0 (length (getBody M F)));
      if LastChanged : bool then
        '(_, M'') ← inlineCallsInFunction fuel' M' F SplitterCallers SAA;
        Some (true, M'')
      else Some (false, M')
  end.

(** ** fillTransitiveSplitterCallers (lines 126-170) *)

(** The traversal of lines 131-141 over the instructions of the blocks,
    with the overload for a function as [rec]: every direct call is
    visited, whatever [Found] is by then. *)
Fixpoint fillCalls (rec : string → gset string → option (bool * gset string))
    (gs : list string) (FuncsWSplitter : gset string)
    : option (bool * gset string) :=
  match gs with
  | [] => Some (false, FuncsWSplitter)
  | g :: gs' =>
      '(r, S1) ← rec g FuncsWSplitter;
      '(Found, S2) ← fillCalls rec gs' S1;
      Some (r || Found, S2)
  end.

(** The overload for a function, lines 146-165 (the warning for a function
    that is not defined is not modelled). *)
Fixpoint fillTransitiveSplitterCallers_Function (fuel : nat) (M : Module)
    (SAA : SplitterAnnotationInfo) (F : string) (FuncsWSplitter : gset string)
    : option (bool * gset string) :=
  match fuel with
  | 0 => None
  | S fuel' =>
      if isSplitterFunc SAA F then Some (true, {[F]} ∪ FuncsWSplitter)
      else if bool_decide (F ∈ FuncsWSplitter) then Some (true, FuncsWSplitter)
      else
        '(Found, S1) ←
          fillCalls (fillTransitiveSplitterCallers_Function fuel' M SAA)
            (callees (concat (getBody M F))) FuncsWSplitter;
        if Found : bool then Some (true, {[F]} ∪ S1) else Some (false, S1)
  end.

(** The overload for a list of blocks, lines 128-142. *)
Definition fillTransitiveSplitterCallers_Blocks (fuel : nat) (M : Module)
    (SAA : SplitterAnnotationInfo) (Blocks : Body) (FuncsWSplitter : gset string)
    : option (bool * gset string) :=
  fillCalls (fillTransitiveSplitterCallers_Function fuel M SAA)
    (callees (concat Blocks)) FuncsWSplitter.

(** The overload for a loop, lines 167-170. *)
Definition fillTransitiveSplitterCallers_Loop (fuel : nat) (M : Module)
    (SAA : SplitterAnnotationInfo) (F : string) (L : Loop)
    (FuncsWSplitter : gset string) : option (bool * gset string) :=
  fillTransitiveSplitterCallers_Blocks fuel M SAA
    ((λ b, getBlock M F b) <$> getBlocks L) FuncsWSplitter.

(** ** inlineSplitter (lines 172-203) *)

Definition inlineSplitter_Loop (fuel : nat) (M : Module) (F : string) (L : Loop)
    (SAA : SplitterAnnotationInfo) : option (bool * Module) :=
  if negb (isWorkItemLoop L) then Some (false, M)
  else
    '(Found, SplitterCallers) ← fillTransitiveSplitterCallers_Loop fuel M SAA F L ∅;
    if negb Found then Some (false, M)
    else
      '(Changed, M', _) ←
        inlineCallsInLoop fuel M F L SplitterCallers SAA;
      Some (Changed, M').

Definition inlineSplitter_Function (fuel : nat) (M : Module) (F : string)
    (SAA : SplitterAnnotationInfo) : option (bool * Module) :=
  match getSingleWorkItemLoop (getBody M F) with
  | Some L => inlineSplitter_Loop fuel M F L SAA
  | None =>
      '(Found, SplitterCallers) ← fillTransitiveSplitterCallers_Function fuel M SAA F ∅;
      if negb Found then Some (false, M)
      else inlineCallsInFunction fuel M F SplitterCallers SAA
  end.

(** ** The entry points (lines 213-245) *)

Definition runOnFunction (fuel : nat) (M : Module) (SAA : SplitterAnnotationInfo)
    (F : string) : option (bool * Module) :=
  if negb (isKernelFunc SAA F) then Some (false, M)
  else inlineSplitter_Function fuel M F SAA.

(** [SAA] is the cached result of the annotation analysis, if any. *)
Definition run (fuel : nat) (M : Module) (SAA : option SplitterAnnotationInfo)
    (F : string) : option (PreservedAnalyses * Module) :=
  match SAA with
  | None => Some (PreservedAll, M)
  | Some SAA =>
      if negb (isKernelFunc SAA F) then Some (PreservedAll, M)
      else
        '(Changed, M') ← inlineSplitter_Function fuel M F SAA;
        if negb Changed then Some (PreservedAll, M')
        else Some (PreservedSplitterAnnotationAnalysis, M')
  end.


(** ** The call graph, as the specification speaks of it *)

(** [g] is the target of a direct call in the body of [f]. *)
Definition calls (M : Module) (f g : string) : Prop :=
  g ∈ callees (concat (getBody M f)).

(** [h] is reachable from [f] through one or more direct calls. *)
Inductive reaches (M : Module) : string → string → Prop :=
| reaches_call f g : calls M f g → reaches M f g
| reaches_step f g h : calls M f g → reaches M g h → reaches M f h.

(** The same along a chain none of whose callers is a splitter. *)
Inductive reachesOpen (M : Module) (SAA : SplitterAnnotationInfo)
    : string → string → Prop :=
| reachesOpen_call f g :
    isSplitterFunc SAA f = false → calls M f g → reachesOpen M SAA f g
| reachesOpen_step f g h :
    isSplitterFunc SAA f = false → calls M f g → reachesOpen M SAA g h →
    reachesOpen M SAA f h.

(** [h] is annotated as a splitter, or transitively calls one. *)
Definition hits (M : Module) (SAA : SplitterAnnotationInfo) (h : string) : Prop :=
  isSplitterFunc SAA h = true ∨ ∃ s, reaches M h s ∧ isSplitterFunc SAA s = true.

(** Reachability from a scope, given by the targets [gs] of its direct calls. *)
Definition scopeReaches (M : Module) (gs : list string) (h : string) : Prop :=
  ∃ g, g ∈ gs ∧ (g = h ∨ reaches M g h).

Definition scopeReachesOpen (M : Module) (SAA : SplitterAnnotationInfo)
    (gs : list string) (h : string) : Prop :=
  ∃ g, g ∈ gs ∧ (g = h ∨ reachesOpen M SAA g h).

(** The call graph is not recursive: every call goes to a function of
    smaller rank (the precondition of lines 78, 104 and 144). *)
Definition ranked (M : Module) (rank : string → nat) : bool :=
  forallb (λ fb : string * Body,
             forallb (λ g, rank g <? rank fb.1) (callees (concat fb.2)))
          (map_to_list M).

(** ** What a scan does with a call *)

(** [checkedInlineFunction] succeeds on [g]. *)
Definition inlinable (M : Module) (g : string) : bool :=
  negb (bool_decide (g = BarrierIntrinsicName)) &&
  negb (bool_decide (getBody M g = [])).

(** The scan of lines 51-70 acts on a call to [g]. *)
Definition actionable (M : Module) (SplitterCallers : gset string)
    (SAA : SplitterAnnotationInfo) (g : string) : bool :=
  if bool_decide (g ∈ SplitterCallers) && negb (isSplitterFunc SAA g)
  then inlinable M g
  else isSplitterFunc SAA g && negb (bool_decide (g = BarrierIntrinsicName)).

(** Block [b] of [F], which is [pre], a call and [post], with the call
    lowered to the barrier intrinsic (lines 63-64 taken together). *)
Definition lowerCall (M : Module) (F : string) (b : nat)
    (pre post : BasicBlock) : Module :=
  <[F := <[b := pre ++ Call (Some BarrierIntrinsicName) :: post]> (getBody M F)]> M.

(** The scopes of the pass, each as the specification describes it. *)
Definition loopScoped (fuel : nat) (M : Module) (F : string) (L : Loop)
    (SAA : SplitterAnnotationInfo) : option (bool * Module) :=
  '(Found, SplitterCallers) ←
    fillTransitiveSplitterCallers_Blocks fuel M SAA
      ((λ b, getBlock M F b) <$> getBlocks L) ∅;
  if Found : bool then
    '(Changed, M', _) ←
      inlineCallsInLoop fuel M F L SplitterCallers SAA;
    Some (Changed, M')
  else Some (false, M).

Definition functionScoped (fuel : nat) (M : Module) (F : string)
    (SAA : SplitterAnnotationInfo) : option (bool * Module) :=
  '(Found, SplitterCallers) ← fillTransitiveSplitterCallers_Function fuel M SAA F ∅;
  if Found : bool then inlineCallsInFunction fuel M F SplitterCallers SAA
  else Some (false, M).

(** What a visit of [f] by the finder contributes: [f] and the functions
    called along chains of non-splitters from it, as far as they are
    splitters or transitively call one. *)
Definition visit (M : Module) (SAA : SplitterAnnotationInfo) (f h : string) : Prop :=
  (f = h ∨ reachesOpen M SAA f h) ∧ hits M SAA h.

(** The invariant of the set that the finder fills: its members are
    splitters or callers of splitters, and what a visit of a member would
    contribute is in the set already (so that the finder may stop at a
    member, lines 154-155). *)
Definition filled (M : Module) (SAA : SplitterAnnotationInfo) (S : gset string) : Prop :=
  ∀ g, g ∈ S → hits M SAA g ∧ ∀ h, visit M SAA g h → h ∈ S.

(** The rank as a property of the call graph. *)
Definition descending (M : Module) (rank : string → nat) : Prop :=
  ∀ f g, calls M f g → rank g < rank f.

(** ** The work that is left to the inliner *)

(** What a call to [g] costs the inliner, on a call graph of depth at most
    [n]: nothing for the barrier intrinsic, one lowering for another
    splitter, and otherwise one inlining and the cost of the calls of the
    body. *)
Fixpoint weight (n : nat) (M : Module) (SAA : SplitterAnnotationInfo) (g : string)
    : nat :=
  match n with
  | 0 => 0
  | S n' =>
      if bool_decide (g = BarrierIntrinsicName) then 0
      else if isSplitterFunc SAA g then 1
      else S (sum_list_with (weight n' M SAA) (callees (concat (getBody M g))))
  end.

Definition callWeight (M : Module) (SAA : SplitterAnnotationInfo)
    (rank : string → nat) (g : string) : nat :=
  weight (S (rank g)) M SAA g.

(** The cost of the calls of [F] in [M], the callees being those of [M0]. *)
Definition pending (M0 : Module) (SAA : SplitterAnnotationInfo)
    (rank : string → nat) (M : Module) (F : string) : nat :=
  sum_list_with (callWeight M0 SAA rank) (callees (concat (getBody M F))).

(** [M] is [M0] but for the body of [F], which calls the barrier intrinsic
    and functions of smaller rank only. *)
Definition tracks (M0 : Module) (rank : string → nat) (F : string) (M : Module)
    : Prop :=
  (∀ G, G ≠ F → M !! G = M0 !! G) ∧
  (∀ g, calls M F g → g = BarrierIntrinsicName ∨ rank g < rank F).

(** A scan of block [b] of [F] in [M] acts, and gives [M']. *)
Definition step (M : Module) (F : string) (b : nat) (SC : gset string)
    (SAA : SplitterAnnotationInfo) (M' : Module) : Prop :=
  scanBlock M F b SC SAA [] (getBlock M F b) = Some M'.

(** No scan acts on block [b] of [F] in [M]. *)
Definition quiet (M : Module) (F : string) (SC : gset string)
    (SAA : SplitterAnnotationInfo) (b : nat) : Prop :=
  Forall (λ g, actionable M SC SAA g = false) (callees (getBlock M F b)).

(** The calls of the blocks [Rg] of [F] in [M1] go to the barrier intrinsic
    or to functions that the finder visited from the calls [gs] in [M]. *)
Definition visited (M : Module) (SAA : SplitterAnnotationInfo) (gs : list string)
    (F : string) (Rg : nat → Prop) (M1 : Module) : Prop :=
  ∀ b g, Rg b → g ∈ callees (getBlock M1 F b) →
         g = BarrierIntrinsicName ∨ scopeReachesOpen M SAA gs g.

(** The rank of a module in which the barrier intrinsic, a declaration,
    may be called from anywhere. *)
Definition rankAbove (rank : string → nat) (g : string) : nat :=
  if bool_decide (g = BarrierIntrinsicName) then 0 else S (rank g).

(** The loop analysis of the host compiler is coherent between the
    function as the pass finds it in [M] and as it leaves it in [M']: no
    loop is identified after the pass when none was before; and if [L] was
    identified before, recomputing the loop of its header never draws in a
    block that the function had outside [L], and the loop identified after
    the pass lies within the loop of the header of [L]. *)
Definition coherent (M : Module) (F : string) (M' : Module) : Prop :=
  match getSingleWorkItemLoop (getBody M F) with
  | None => getSingleWorkItemLoop (getBody M' F) = None
  | Some L =>
      (∀ body b, b ∈ getBlocks (updateDtAndLi body (hd 0 (getBlocks L))) →
                 b < length (getBody M F) → b ∈ getBlocks L) ∧
      ∃ L', getSingleWorkItemLoop (getBody M' F) = Some L' ∧
            ∀ b, b ∈ getBlocks L' →
                 b ∈ getBlocks (updateDtAndLi (getBody M' F) (hd 0 (getBlocks L)))
  end.

(** What the first run of the pass keeps true of the module. *)
Definition kept (M : Module) (SAA : SplitterAnnotationInfo) (rank : string → nat)
    (F : string) (gs : list string) (Rg : nat → Prop) (M1 : Module) : Prop :=
  tracks M rank F M1 ∧ visited M SAA gs F Rg M1 ∧
  getBody M1 BarrierIntrinsicName = [] ∧
  length (getBody M F) ≤ length (getBody M1 F).

(** ** Sample modules *)

(** A kernel with the call chain kernel, helper, inner, sync, the last a
    barrier under a name of the user; block 1 of the kernel is its
    work-item loop. *)
Definition sampleBarrier : string := "__hipsycl_barrier".

Definition sampleSAA : SplitterAnnotationInfo :=
  {| isKernelFunc := λ f, bool_decide (f = "kernel");
     isSplitterFunc := λ f, bool_decide (f = "sync") |}.

Definition sampleModule : Module :=
  <["kernel" := [[Other 0; Call (Some "helper"); Other 1];
                 [Call (Some "helper"); Other 2]]]>
  (<["helper" := [[Other 3; Call (Some "inner")]; [Other 4]]]>
  (<["inner" := [[Call (Some "sync"); Other 5]]]> ∅)).

Definition sampleRank (f : string) : nat :=
  if String.eqb f "kernel" then 3
  else if String.eqb f "helper" then 2
  else if String.eqb f "inner" then 1
  else 0.

(** The loop of block 1: the block and every block added to the two of
    the kernel. *)
Definition sampleLoopOf (body : Body) : Loop :=
  {| getBlocks := 1 :: seq 2 (length body - 2) |}.

(** The kernel after the pass on the whole function, and on the loop. *)
Definition sampleFunctionOutput : Module :=
  <["kernel" := [[Other 0; Other 3; Call (Some sampleBarrier); Other 5];
                 [Other 3; Call (Some sampleBarrier); Other 5];
                 [Other 4]; [Other 1]; [Other 4]; [Other 2]]]> sampleModule.

Definition sampleLoopOutput : Module :=
  <["kernel" := [[Other 0; Call (Some "helper"); Other 1];
                 [Other 3; Call (Some sampleBarrier); Other 5];
                 [Other 4]; [Other 2]]]> sampleModule.

(** A kernel that calls no barrier. *)
Definition sampleCalmModule : Module :=
  <["kernel" := [[Other 0; Call (Some "scale")]]]> (<["scale" := [[Other 1]]]> ∅).

(** A barrier of the user that is implemented by another barrier. *)
Definition sampleNestedSAA : SplitterAnnotationInfo :=
  {| isKernelFunc := λ f, bool_decide (f = "kernel");
     isSplitterFunc := λ f, bool_decide (f = "group_barrier")
                            || bool_decide (f = "local_barrier") |}.

Definition sampleNestedModule : Module :=
  <["kernel" := [[Call (Some "group_barrier")]]]>
  (<["group_barrier" := [[Call (Some "local_barrier"); Other 6]]]> ∅).

Definition sampleNestedRank (f : string) : nat :=
  if String.eqb f "kernel" then 2
  else if String.eqb f "group_barrier" then 1
  else 0.

(** A kernel that calls a barrier of the user that has a body. *)
Definition sampleDirectModule : Module :=
  <["kernel" := [[Call (Some "sync")]]]> (<["sync" := [[Other 5]]]> ∅).

(** Sample answers of the loop classifier and of the loop analysis. *)
Definition sampleGetLoop (body : Body) : option Loop := Some (sampleLoopOf body).
Definition sampleNoLoop (body : Body) : option Loop := None.
Definition sampleUpdate (body : Body) (B : nat) : Loop := sampleLoopOf body.
Definition sampleIsWorkItem (L : Loop) : bool := true.
Definition sampleNotWorkItem (L : Loop) : bool := false.

Definition sampleCalmRank (f : string) : nat :=
  if String.eqb f "kernel" then 1 else 0.

(** ** Instructions that the pass has no business with *)

(** A call with a statically resolved target. *)
Definition isDirectCall (i : Instruction) : bool :=
  match i with
  | Call (Some _) => true
  | _ => false
  end.

(** The instructions that are not direct calls: the indirect calls and
    everything that is not a call. *)
Definition otherInstructions (insts : BasicBlock) : BasicBlock :=
  filter (λ i, isDirectCall i = false) insts.

(** What the pass makes of an instruction when it has nothing to inline:
    a direct call to a splitter becomes a call to the barrier intrinsic,
    every other instruction stays. *)
Definition lowerInstruction (SAA : SplitterAnnotationInfo) (i : Instruction)
    : Instruction :=
  match i with
  | Call (Some g) =>
      if isSplitterFunc SAA g then Call (Some BarrierIntrinsicName) else i
  | _ => i
  end.

Definition lowerBody (SAA : SplitterAnnotationInfo) (body : Body) : Body :=
  (λ blk : BasicBlock, lowerInstruction SAA <$> blk) <$> body.

(** A kernel that calls a function that calls itself after its barrier. *)
Definition sampleRecursiveModule : Module :=
  <["kernel" := [[Call (Some "spin")]]]>
  (<["spin" := [[Call (Some "sync"); Call (Some "spin")]]]> ∅).

Definition sampleOnCycle (f : string) : Prop := f = "kernel" ∨ f = "spin".

(** ** The run of the inliner, and a call followed through it *)

(** The scans that act, one after the other: [M'] is reached from [M] by
    scans of blocks of [F], each of which acts. *)
Inductive scans (F : string) (SC : gset string) (SAA : SplitterAnnotationInfo)
    : Module → Module → Prop :=
| scans_refl M : scans F SC SAA M M
| scans_step M b M1 M' :
    step M F b SC SAA M1 → scans F SC SAA M1 M' → scans F SC SAA M M'.

(** On the way from [M] to [M'] a block is scanned in which the call to
    [g] that is followed by [post] is the first call that the scan may act
    on. *)
Definition actedOnTheWay (F : string) (SC : gset string)
    (SAA : SplitterAnnotationInfo) (M : Module) (g : string) (post : BasicBlock)
    (M' : Module) : Prop :=
  ∃ M1 b1 pre1 M2,
    scans F SC SAA M M1 ∧
    getBlock M1 F b1 = pre1 ++ Call (Some g) :: post ∧
    Forall (λ h, actionable M1 SC SAA h = false) (callees pre1) ∧
    step M1 F b1 SC SAA M2 ∧
    scans F SC SAA M2 M'.

(** On the way from [M] to [M'] the call to [g] that is followed by
    [post] is replaced, where it stands, by a call to the barrier
    intrinsic. *)
Definition loweredOnTheWay (F : string) (SC : gset string)
    (SAA : SplitterAnnotationInfo) (M : Module) (g : string) (post : BasicBlock)
    (M' : Module) : Prop :=
  ∃ M1 b1 pre1 M2,
    scans F SC SAA M M1 ∧
    getBlock M1 F b1 = pre1 ++ Call (Some g) :: post ∧
    scanBlock M1 F b1 SC SAA [] (getBlock M1 F b1) = Some M2 ∧
    getBody M2 F =
      <[b1 := pre1 ++ Call (Some BarrierIntrinsicName) :: post]> (getBody M1 F) ∧
    (∀ G, G ≠ F → M2 !! G = M1 !! G) ∧
    scans F SC SAA M2 M'.

(** On the way from [M] to [M'] the call to [g] that is followed by
    [post] gives way, where it stands, to the blocks [c :: cs] of [g]: to
    [c] alone if that is all, else to [c] at the end of its block, with
    [cs] and then [post] in blocks of their own. *)
Definition inlinedOnTheWay (F : string) (SC : gset string)
    (SAA : SplitterAnnotationInfo) (M : Module) (g : string) (post : BasicBlock)
    (M' : Module) : Prop :=
  ∃ M1 b1 pre1 M2 c cs,
    scans F SC SAA M M1 ∧
    getBlock M1 F b1 = pre1 ++ Call (Some g) :: post ∧
    getBody M1 g = c :: cs ∧
    (g ≠ F → getBody M1 g = getBody M g) ∧
    scanBlock M1 F b1 SC SAA [] (getBlock M1 F b1) = Some M2 ∧
    getBody M2 F =
      match cs with
      | [] => <[b1 := pre1 ++ c ++ post]> (getBody M1 F)
      | _ => <[b1 := pre1 ++ c]> (getBody M1 F) ++ cs ++ [post]
      end ∧
    (∀ G, G ≠ F → M2 !! G = M1 !! G) ∧
    scans F SC SAA M2 M'.

(** Where the call to [g] followed by [post], of block [b] of [F] in
    [M0], is when the inliner has come to [M1]: acted on, or waiting in
    its block or in a block that has been added since. *)
Definition tracked (F : string) (SC : gset string) (SAA : SplitterAnnotationInfo)
    (M0 : Module) (b : nat) (g : string) (post : BasicBlock) (M1 : Module) : Prop :=
  scans F SC SAA M0 M1 ∧
  length (getBody M0 F) ≤ length (getBody M1 F) ∧
  (actedOnTheWay F SC SAA M0 g post M1 ∨
   ∃ b1 q, (b1 = b ∨ length (getBody M0 F) ≤ b1) ∧
           getBlock M1 F b1 = q ++ Call (Some g) :: post).

(** The number of the calls of [F] to the barrier intrinsic. *)
Definition barrierCalls (M : Module) (F : string) : nat :=
  length (filter (λ h, h = BarrierIntrinsicName) (callees (concat (getBody M F)))).

(** A kernel that calls a barrier, then a wrapper of the barrier, then the
    barrier again, all in one block; and what the inliner makes of it. *)
Definition sampleTwiceModule : Module :=
  <["kernel" := [[Call (Some "sync"); Call (Some "wrap"); Call (Some "sync")]]]>
  (<["wrap" := [[Other 7; Call (Some "sync")]]]> ∅).

Definition sampleTwiceOutput : Module :=
  <["kernel" := [[Call (Some sampleBarrier); Other 7; Call (Some sampleBarrier);
                  Call (Some sampleBarrier)]]]> sampleTwiceModule.

(** * Properties *)

(** Proofs about the call graph alone do without the oracles of the host
    compiler. *)
Local Ltac forget_oracles :=
  try clear getSingleWorkItemLoop; try clear isWorkItemLoop;
  try clear updateDtAndLi.

(** ** Modules and blocks *)

Lemma getBody_insert_eq (M : Module) F body : getBody (<[F := body]> M) F = body.
Proof. unfold getBody. by rewrite lookup_insert_eq. Qed.

Lemma getBody_insert_ne (M : Module) F G body :
  F ≠ G → getBody (<[F := body]> M) G = getBody M G.
Proof. intros. unfold getBody. by rewrite lookup_insert_ne. Qed.

Lemma getBlock_nonempty_lt (M : Module) F b :
  getBlock M F b ≠ [] → b < length (getBody M F).
Proof.
  unfold getBlock. intros Hne.
  destruct (getBody M F !! b) eqn:E; [|done].
  by eapply lookup_lt_Some.
Qed.

(** ** The entry points *)

(** C6: a function that the annotation oracle does not classify as a
    kernel is left as it is, module and all, and both entry points report
    "no change" (the legacy pass returns [false], the new pass manager is
    told that all analyses are preserved). *)
Theorem non_kernel_untouched (fuel : nat) (M : Module)
    (SAA : SplitterAnnotationInfo) (F : string) :
  isKernelFunc SAA F = false →
  runOnFunction fuel M SAA F = Some (false, M) ∧
  run fuel M (Some SAA) F = Some (PreservedAll, M).
Proof.
  intros HK. unfold runOnFunction, run. by rewrite HK.
Qed.

(** C10: without a cached annotation analysis the new-pass-manager entry
    point transforms nothing and reports all analyses preserved, kernel or
    not, and whatever the fuel. *)
Theorem run_without_cached_analysis (fuel : nat) (M : Module) (F : string) :
  run fuel M None F = Some (PreservedAll, M).
Proof. reflexivity. Qed.


(** ** One scan of a block *)

Lemma erase_createBarrier M F b pre i post :
  eraseFromParent (createBarrier M F b pre (i :: post)) F b (S (length pre))
  = lowerCall M F b pre post.
Proof.
  unfold eraseFromParent, createBarrier, lowerCall, getBlock.
  rewrite getBody_insert_eq, insert_insert_eq. f_equal.
  destruct (decide (b < length (getBody M F))) as [Hlt|Hge].
  - rewrite list_lookup_insert_eq by done. simpl.
    rewrite list_insert_insert_eq. f_equal.
    change (Call (Some BarrierIntrinsicName) :: i :: post)
      with ([Call (Some BarrierIntrinsicName)] ++ i :: post).
    rewrite app_assoc.
    replace (S (length pre)) with (length (pre ++ [Call (Some BarrierIntrinsicName)]))
      by (rewrite length_app; simpl; lia).
    rewrite delete_middle. by rewrite <- app_assoc.
  - by rewrite !list_insert_ge by (rewrite ?length_insert; lia).
Qed.

Lemma checkedInlineFunction_None M F b pre post g :
  checkedInlineFunction M F b pre post g = None ↔ inlinable M g = false.
Proof.
  unfold checkedInlineFunction, inlinable.
  case_bool_decide; simpl; [done|].
  destruct (getBody M g) as [|c [|c' cs]]; simpl; split; intros; try done.
Qed.

Lemma scanBlock_skip M F b SC SAA pre q rest :
  Forall (λ g, actionable M SC SAA g = false) (callees q) →
  scanBlock M F b SC SAA pre (q ++ rest) = scanBlock M F b SC SAA (pre ++ q) rest.
Proof.
  revert pre. induction q as [|i q IH]; intros pre Hq; simpl.
  { by rewrite app_nil_r. }
  replace (pre ++ i :: q) with ((pre ++ [i]) ++ q) by by rewrite <- app_assoc.
  destruct i as [[g|]|op]; simpl in Hq; try by apply IH.
  apply Forall_cons in Hq as [Hg Hq]. unfold actionable in Hg.
  destruct (bool_decide (g ∈ SC) && negb (isSplitterFunc SAA g)).
  - apply checkedInlineFunction_None with (F := F) (b := b) (pre := pre) (post := q ++ rest) in Hg.
    rewrite Hg. by apply IH.
  - rewrite Hg. by apply IH.
Qed.

Lemma scanBlock_None M F b SC SAA pre rest :
  scanBlock M F b SC SAA pre rest = None ↔
  Forall (λ g, actionable M SC SAA g = false) (callees rest).
Proof.
  revert pre. induction rest as [|i rest IH]; intros pre; simpl.
  { split; [constructor|done]. }
  destruct i as [[g|]|op]; try apply IH.
  rewrite Forall_cons. unfold actionable at 1.
  destruct (bool_decide (g ∈ SC) && negb (isSplitterFunc SAA g)).
  - destruct (checkedInlineFunction M F b pre rest g) eqn:E.
    + split; [done|]. intros [Hg _].
      apply checkedInlineFunction_None with (F := F) (b := b) (pre := pre) (post := rest) in Hg.
      congruence.
    + apply checkedInlineFunction_None in E. rewrite IH. tauto.
  - destruct (isSplitterFunc SAA g && negb (bool_decide (g = BarrierIntrinsicName))).
    + split; [done|]. by intros [? _].
    + rewrite IH. tauto.
Qed.

(** A scan that acts does so on the first call it can act on: it inlines
    it, or lowers it to the barrier intrinsic. *)
Lemma scanBlock_Some M F b SC SAA pre rest M' :
  scanBlock M F b SC SAA pre rest = Some M' →
  ∃ q g post,
    rest = q ++ Call (Some g) :: post ∧
    Forall (λ g, actionable M SC SAA g = false) (callees q) ∧
    ((g ∈ SC ∧ isSplitterFunc SAA g = false ∧
      checkedInlineFunction M F b (pre ++ q) post g = Some M') ∨
     (isSplitterFunc SAA g = true ∧ g ≠ BarrierIntrinsicName ∧
      M' = lowerCall M F b (pre ++ q) post)).
Proof.
  revert pre. induction rest as [|i rest IH]; intros pre; simpl; [done|].
  assert (Hskip : scanBlock M F b SC SAA (pre ++ [i]) rest = Some M' →
                  actionable M SC SAA <$> (match i with Call (Some g) => Some g | _ => None end)
                    ≠ Some true →
    ∃ q g post, i :: rest = q ++ Call (Some g) :: post ∧
      Forall (λ g, actionable M SC SAA g = false) (callees q) ∧
      ((g ∈ SC ∧ isSplitterFunc SAA g = false ∧
        checkedInlineFunction M F b (pre ++ q) post g = Some M') ∨
       (isSplitterFunc SAA g = true ∧ g ≠ BarrierIntrinsicName ∧
        M' = lowerCall M F b (pre ++ q) post))).
  { intros Hs Hi. apply IH in Hs as (q & g & post & -> & Hq & Hact).
    exists (i :: q), g, post. split; [done|]. split.
    - destruct i as [[h|]|op]; simpl; try done.
      constructor; [|done]. simpl in Hi. destruct (actionable M SC SAA h); congruence.
    - by rewrite <- app_assoc in Hact. }
  destruct i as [[g|]|op]; try (intros; by apply Hskip).
  destruct (bool_decide (g ∈ SC) && negb (isSplitterFunc SAA g)) eqn:Hin.
  - destruct (checkedInlineFunction M F b pre rest g) eqn:E.
    + intros [= ->]. exists [], g, rest. rewrite app_nil_r.
      apply andb_true_iff in Hin as [Hin Hns]. apply bool_decide_eq_true in Hin.
      apply negb_true_iff in Hns. split_and!; [done|constructor|]. by left.
    + intros Hs. apply Hskip; [done|]. simpl. unfold actionable. rewrite Hin.
      apply checkedInlineFunction_None in E. congruence.
  - destruct (isSplitterFunc SAA g && negb (bool_decide (g = BarrierIntrinsicName))) eqn:Hsp.
    + rewrite erase_createBarrier. intros [= <-]. exists [], g, rest. rewrite app_nil_r.
      apply andb_true_iff in Hsp as [Hsp Hne]. apply negb_true_iff, bool_decide_eq_false in Hne.
      split_and!; [done|constructor|]. by right.
    + intros Hs. apply Hskip; [done|]. simpl. unfold actionable. rewrite Hin, Hsp. done.
Qed.


(** A scan that reaches a call to a splitter that is not named as the
    barrier intrinsic replaces it by a call to the barrier intrinsic at the
    same place of the same block, nothing else changing. *)
Lemma scan_lowers (M : Module) (F : string) (b : nat)
    (SplitterCallers : gset string) (SAA : SplitterAnnotationInfo)
    (pre post : BasicBlock) (g : string) :
  getBlock M F b = pre ++ Call (Some g) :: post →
  Forall (λ h, actionable M SplitterCallers SAA h = false) (callees pre) →
  isSplitterFunc SAA g = true →
  g ≠ BarrierIntrinsicName →
  ∃ M', scanBlock M F b SplitterCallers SAA [] (getBlock M F b) = Some M' ∧
        getBody M' F =
          <[b := pre ++ Call (Some BarrierIntrinsicName) :: post]> (getBody M F) ∧
        ∀ G, G ≠ F → M' !! G = M !! G.
Proof.
  intros Hblk Hpre Hsp Hne.
  rewrite Hblk, (scanBlock_skip _ _ _ _ _ [] pre) by done. simpl.
  rewrite Hsp, andb_false_r. simpl. rewrite bool_decide_eq_false_2 by done. simpl.
  rewrite erase_createBarrier.
  eexists. split; [done|]. unfold lowerCall.
  rewrite getBody_insert_eq. split; [done|].
  intros G HG. by rewrite lookup_insert_ne.
Qed.

(** A scan walks past a call to the barrier intrinsic itself, whatever the
    caller set and the oracle say of it. *)
Lemma scan_passes_intrinsic M0 F0 b0 SC0 SAA0 pre0 post0 :
  scanBlock M0 F0 b0 SC0 SAA0 pre0 (Call (Some BarrierIntrinsicName) :: post0) =
  scanBlock M0 F0 b0 SC0 SAA0 (pre0 ++ [Call (Some BarrierIntrinsicName)]) post0.
Proof.
  simpl. unfold checkedInlineFunction.
  rewrite (bool_decide_eq_true_2 (BarrierIntrinsicName = BarrierIntrinsicName)) by done.
  simpl. rewrite andb_false_r. by destruct (_ && _).
Qed.

(** C5 (amended): the driver transforms the blocks of the loop when the
    classifier identifies a loop and classifies it as a work-item loop, and
    the whole function when it identifies none; when it identifies a loop
    that is not classified as a work-item loop, nothing is transformed and
    "no change" is reported. *)
Theorem scope_selection (fuel : nat) (M : Module) (F : string)
    (SAA : SplitterAnnotationInfo) :
  (∀ L, getSingleWorkItemLoop (getBody M F) = Some L → isWorkItemLoop L = true →
        inlineSplitter_Function fuel M F SAA = loopScoped fuel M F L SAA) ∧
  (getSingleWorkItemLoop (getBody M F) = None →
        inlineSplitter_Function fuel M F SAA = functionScoped fuel M F SAA) ∧
  (∀ L, getSingleWorkItemLoop (getBody M F) = Some L → isWorkItemLoop L = false →
        inlineSplitter_Function fuel M F SAA = Some (false, M)).
Proof.
  unfold inlineSplitter_Function, inlineSplitter_Loop, loopScoped, functionScoped,
    fillTransitiveSplitterCallers_Loop.
  split_and!.
  - intros L -> ->. simpl.
    destruct (fillTransitiveSplitterCallers_Blocks _ _ _ _ _) as [[[] SC]|]; done.
  - intros ->.
    destruct (fillTransitiveSplitterCallers_Function _ _ _ _ _) as [[[] SC]|]; done.
  - by intros L -> ->.
Qed.

(** ** The call graph *)

Lemma ranked_calls M rank f g :
  ranked M rank = true → calls M f g → rank g < rank f.
Proof.
  unfold ranked, calls, getBody. intros Hr Hc.
  destruct (M !! f) as [body|] eqn:E; simpl in Hc; [|by apply not_elem_of_nil in Hc].
  rewrite forallb_forall in Hr.
  assert (Hin : In (f, body) (map_to_list M)).
  { apply list_elem_of_In. by apply elem_of_map_to_list. }
  apply Hr in Hin. simpl in Hin. rewrite forallb_forall in Hin.
  apply Nat.ltb_lt, Hin. by apply list_elem_of_In.
Qed.

Lemma ranked_descending M rank : ranked M rank = true ↔ descending M rank.
Proof.
  split; [intros Hr f g; by apply ranked_calls|].
  intros Hd. unfold ranked. apply forallb_forall. intros [f body] Hin.
  apply forallb_forall. intros g Hg. apply Nat.ltb_lt. simpl.
  apply Hd. unfold calls, getBody.
  apply list_elem_of_In, elem_of_map_to_list in Hin. rewrite Hin. simpl.
  by apply list_elem_of_In.
Qed.

Lemma callees_app l1 l2 : callees (l1 ++ l2) = callees l1 ++ callees l2.
Proof.
  induction l1 as [|[[g|]|op] l1 IH]; simpl; [done| |done|done].
  by rewrite IH.
Qed.

Lemma elem_of_callees g l : g ∈ callees l ↔ Call (Some g) ∈ l.
Proof.
  induction l as [|[[h|]|op] l IH]; simpl.
  - split; intros H; by apply not_elem_of_nil in H.
  - rewrite !elem_of_cons, IH. split; intros [?|?]; auto; left; congruence.
  - rewrite elem_of_cons, IH. split; [auto|]. by intros [?|?].
  - rewrite elem_of_cons, IH. split; [auto|]. by intros [?|?].
Qed.

Lemma reachesOpen_reaches M SAA f h : reachesOpen M SAA f h → reaches M f h.
Proof.
  induction 1; [by apply reaches_call|by eapply reaches_step].
Qed.

Lemma reaches_trans M f g h : reaches M f g → reaches M g h → reaches M f h.
Proof.
  induction 1; intros; eapply reaches_step; eauto.
Qed.

Lemma hits_caller M SAA f g : calls M f g → hits M SAA g → hits M SAA f.
Proof.
  intros Hc [Hs|(s & Hr & Hs)]; right.
  - exists g. split; [by apply reaches_call|done].
  - exists s. split; [by eapply reaches_step|done].
Qed.

Lemma hits_inv M SAA f :
  hits M SAA f → isSplitterFunc SAA f = false →
  ∃ g, calls M f g ∧ hits M SAA g.
Proof.
  intros [Hs|(s & Hr & Hs)] Hns; [congruence|].
  inversion Hr; subst.
  - exists s. split; [done|by left].
  - eexists. split; [done|]. right. eauto.
Qed.

(** A visit of a function that is not a splitter contributes the function
    itself, when it calls a splitter transitively, and what the visits of
    its callees contribute. *)
Lemma visit_unfold M SAA f h :
  isSplitterFunc SAA f = false →
  visit M SAA f h ↔ (f = h ∧ hits M SAA f) ∨ ∃ g, calls M f g ∧ visit M SAA g h.
Proof.
  intros Hns. unfold visit. split.
  - intros [[->|Hr] Hh]; [by left|]. right.
    inversion Hr; subst; eauto.
  - intros [[-> Hh]|(g & Hc & [Hg|Hr] & Hh)].
    + auto.
    + subst. split; [|done]. right. by apply reachesOpen_call.
    + split; [|done]. right. by eapply reachesOpen_step.
Qed.

Lemma visit_splitter M SAA f h :
  isSplitterFunc SAA f = true → visit M SAA f h ↔ f = h.
Proof.
  intros Hs. unfold visit. split.
  - intros [[->|Hr] _]; [done|]. inversion Hr; congruence.
  - intros ->. split; [by left|by left].
Qed.

Lemma visit_hits M SAA f h : visit M SAA f h → hits M SAA f.
Proof.
  intros [[->|Hr] Hh]; [done|].
  induction Hr; eauto using hits_caller.
Qed.

(** ** The finder *)

Section FillCalls.
Context (M : Module) (SAA : SplitterAnnotationInfo).
Context (rec : string → gset string → option (bool * gset string)).

Lemma fillCalls_spec gs :
  (∀ g S b S', g ∈ gs → filled M SAA S → rec g S = Some (b, S') →
     (b = true ↔ hits M SAA g) ∧ (∀ h, h ∈ S' ↔ h ∈ S ∨ visit M SAA g h) ∧
     filled M SAA S') →
  ∀ S b S', filled M SAA S → fillCalls rec gs S = Some (b, S') →
    (b = true ↔ ∃ g, g ∈ gs ∧ hits M SAA g) ∧
    (∀ h, h ∈ S' ↔ h ∈ S ∨ ∃ g, g ∈ gs ∧ visit M SAA g h) ∧
    filled M SAA S'.
Proof.
  induction gs as [|g gs IH]; intros Hrec S b S' HS; simpl.
  - intros [= <- <-]. split_and!; [|set_solver|done].
    split; [done|]. intros (g & Hg & _). by apply not_elem_of_nil in Hg.
  - destruct (rec g S) as [[r S1]|] eqn:E1; simpl; [|done].
    destruct (fillCalls rec gs S1) as [[r2 S2]|] eqn:E2; simpl; [|done].
    intros [= <- <-].
    destruct (Hrec g S r S1) as (Hr & HS1 & Hf1); [set_solver|done|done|].
    destruct (IH (λ g' S b S' Hg', Hrec g' S b S' (list_elem_of_further _ _ _ Hg'))
                S1 r2 S2 Hf1 E2) as (Hr2 & HS2 & Hf2).
    split_and!; [| |done].
    + rewrite orb_true_iff, Hr, Hr2. set_solver.
    + intros h. rewrite HS2, HS1. set_solver.
Qed.

Lemma fillCalls_total gs :
  (∀ g S, g ∈ gs → is_Some (rec g S)) → ∀ S, is_Some (fillCalls rec gs S).
Proof.
  induction gs as [|g gs IH]; intros Hrec S; simpl; [done|].
  destruct (Hrec g S) as [[r S1] ->]; [set_solver|]. simpl.
  destruct (IH (λ g' S Hg', Hrec g' S (list_elem_of_further _ _ _ Hg')) S1)
    as [[r2 S2] ->]. done.
Qed.
End FillCalls.

Lemma fillTransitiveSplitterCallers_Function_spec M SAA fuel :
  ∀ F S b S', filled M SAA S →
    fillTransitiveSplitterCallers_Function fuel M SAA F S = Some (b, S') →
    (b = true ↔ hits M SAA F) ∧ (∀ h, h ∈ S' ↔ h ∈ S ∨ visit M SAA F h) ∧
    filled M SAA S'.
Proof.
  induction fuel as [|fuel IH]; intros F S b S' HS; simpl; [done|].
  destruct (isSplitterFunc SAA F) eqn:Hsp.
  { intros [= <- <-]. split_and!.
    - split; [by left|done].
    - intros h. rewrite visit_splitter by done. set_solver.
    - intros g [->%elem_of_singleton|Hg]%elem_of_union.
      + split; [by left|]. intros h ->%visit_splitter; [set_solver|done].
      + destruct (HS g Hg) as [? Hcl]. split; [done|]. intros h Hh.
        apply elem_of_union_r. by apply Hcl. }
  case_bool_decide as HF.
  { intros [= <- <-]. destruct (HS F HF) as [? Hcl]. split_and!; [done| |done].
    intros h. split; [auto|]. intros [?|?]; auto. }
  destruct (fillCalls _ _ _) as [[Found S1]|] eqn:E; simpl; [|done].
  eapply fillCalls_spec in E as (HFound & HS1 & Hf1); [|by intros; eapply IH|done].
  assert (Hv : ∀ h, (∃ g, g ∈ callees (concat (getBody M F)) ∧ visit M SAA g h) →
                    visit M SAA F h).
  { intros h Hh. apply visit_unfold; [done|]. by right. }
  destruct Found; intros [= <- <-].
  - assert (HhF : hits M SAA F).
    { destruct HFound as [(g & Hg & Hhg) _]; [done|]. by eapply hits_caller. }
    assert (HS' : ∀ h, h ∈ ({[F]} ∪ S1 : gset string) ↔ h ∈ S ∨ visit M SAA F h).
    { intros h. rewrite elem_of_union, elem_of_singleton, HS1, visit_unfold by done.
      unfold calls. naive_solver. }
    split_and!; [done|done|].
    intros g [->%elem_of_singleton|Hg]%elem_of_union.
    + split; [done|]. intros h Hh. apply HS'. by right.
    + destruct (Hf1 g Hg) as [? Hcl]. split; [done|]. intros h Hh.
      apply elem_of_union_r. by apply Hcl.
  - assert (HhF : ¬ hits M SAA F).
    { intros Hh. apply hits_inv in Hh as (g & Hc & Hg); [|done].
      assert (false = true); [|done]. apply HFound. by exists g. }
    split_and!; [split; [done|by intros]| |done].
    intros h. rewrite HS1, visit_unfold by done. unfold calls. naive_solver.
Qed.

Lemma fillTransitiveSplitterCallers_Function_total M SAA rank fuel :
  descending M rank →
  ∀ F S, rank F < fuel →
    is_Some (fillTransitiveSplitterCallers_Function fuel M SAA F S).
Proof.
  intros Hr. induction fuel as [|fuel IH]; intros F S HF; simpl; [lia|].
  destruct (isSplitterFunc SAA F); [done|].
  case_bool_decide; [done|].
  destruct (fillCalls_total (fillTransitiveSplitterCallers_Function fuel M SAA)
              (callees (concat (getBody M F)))) with (S := S) as [[[] S1] ->]; [|done..].
  intros g S0 Hg. apply IH.
  pose proof (Hr F g Hg). lia.
Qed.

Lemma filled_empty M SAA : filled M SAA ∅.
Proof. intros g Hg. by apply not_elem_of_empty in Hg. Qed.

Lemma fillTransitiveSplitterCallers_Blocks_spec M SAA fuel Blocks Found S :
  fillTransitiveSplitterCallers_Blocks fuel M SAA Blocks ∅ = Some (Found, S) →
  (Found = true ↔ ∃ g, g ∈ callees (concat Blocks) ∧ hits M SAA g) ∧
  (∀ h, h ∈ S ↔ ∃ g, g ∈ callees (concat Blocks) ∧ visit M SAA g h) ∧
  filled M SAA S.
Proof.
  unfold fillTransitiveSplitterCallers_Blocks. intros E.
  eapply fillCalls_spec in E as (HFound & HS & Hf);
    [|by intros; eapply fillTransitiveSplitterCallers_Function_spec
     |apply filled_empty].
  split_and!; [done| |done].
  intros h. rewrite HS. split; [intros [H|H]; [by apply not_elem_of_empty in H|done]|auto].
Qed.

Lemma fillTransitiveSplitterCallers_Blocks_total M SAA rank fuel Blocks :
  descending M rank →
  (∀ g, g ∈ callees (concat Blocks) → rank g < fuel) →
  is_Some (fillTransitiveSplitterCallers_Blocks fuel M SAA Blocks ∅).
Proof.
  intros Hd Hfuel. apply fillCalls_total. intros g S Hg.
  eapply fillTransitiveSplitterCallers_Function_total; eauto.
Qed.

Lemma fillTransitiveSplitterCallers_Blocks_filled M SAA fuel Blocks Found S :
  fillTransitiveSplitterCallers_Blocks fuel M SAA Blocks ∅ = Some (Found, S) →
  filled M SAA S.
Proof.
  unfold fillTransitiveSplitterCallers_Blocks. intros E.
  eapply fillCalls_spec in E as (_ & _ & Hf); [done| |apply filled_empty].
  intros. by eapply fillTransitiveSplitterCallers_Function_spec.
Qed.

Lemma fillTransitiveSplitterCallers_Function_filled M SAA fuel F Found S :
  fillTransitiveSplitterCallers_Function fuel M SAA F ∅ = Some (Found, S) →
  filled M SAA S.
Proof.
  intros E.
  by apply fillTransitiveSplitterCallers_Function_spec in E as (_ & _ & Hf);
    [|apply filled_empty].
Qed.

Lemma elem_of_callees_concat g (l : Body) :
  g ∈ callees (concat l) ↔ ∃ blk, blk ∈ l ∧ g ∈ callees blk.
Proof. forget_oracles.
  induction l as [|blk l IH]; simpl.
  - split; [intros H; by apply not_elem_of_nil in H|].
    intros (blk & H & _). by apply not_elem_of_nil in H.
  - rewrite callees_app, elem_of_app, IH. set_solver.
Qed.

Lemma getBlock_calls M F b g : g ∈ callees (getBlock M F b) → calls M F g.
Proof.
  unfold getBlock, calls. intros Hg.
  destruct (getBody M F !! b) as [blk|] eqn:E; simpl in Hg.
  - apply elem_of_callees_concat. exists blk. split; [|done].
    by eapply list_elem_of_lookup_2.
  - by apply not_elem_of_nil in Hg.
Qed.

Lemma calls_getBlock M F g : calls M F g → ∃ b, g ∈ callees (getBlock M F b).
Proof.
  unfold calls, getBlock. intros (blk & Hb & Hg)%elem_of_callees_concat.
  apply list_elem_of_lookup_1 in Hb as [b Hb]. exists b. by rewrite Hb.
Qed.

Lemma loop_blocks_calls M F bs g :
  g ∈ callees (concat ((λ b, getBlock M F b) <$> bs)) ↔
  ∃ b, b ∈ bs ∧ g ∈ callees (getBlock M F b).
Proof.
  rewrite elem_of_callees_concat. split.
  - intros (blk & (b & -> & Hb)%list_elem_of_fmap & Hg). eauto.
  - intros (b & Hb & Hg). eexists. split; [|done].
    apply list_elem_of_fmap. eauto.
Qed.

(** C2 (amended): on a call graph that is not recursive the finder
    returns, and the set it computes for a scope is exactly the set of the
    functions that are reached from the scope along chains of direct calls
    none of whose callers is a splitter (the search does not enter the body
    of a splitter), and that are splitters or transitively call one; it
    reports "found" exactly when this set is not empty.  Every caller on
    such a chain from which a splitter is reachable is in the set.  For a
    function as the scope, the function itself counts as reached. *)
Theorem finder_computes_open_reach (M : Module) (SAA : SplitterAnnotationInfo)
    (rank : string → nat) (fuel : nat) :
  ranked M rank = true →
  (∀ Blocks : Body,
     (∀ g, g ∈ callees (concat Blocks) → rank g < fuel) →
     ∃ Found S,
       fillTransitiveSplitterCallers_Blocks fuel M SAA Blocks ∅ = Some (Found, S) ∧
       (∀ h, h ∈ S ↔
             scopeReachesOpen M SAA (callees (concat Blocks)) h ∧ hits M SAA h) ∧
       (Found = true ↔ ∃ h, h ∈ S) ∧
       (∀ g h s, g ∈ callees (concat Blocks) →
                 g = h ∨ reachesOpen M SAA g h →
                 reaches M h s → isSplitterFunc SAA s = true → h ∈ S)) ∧
  (∀ F, rank F < fuel →
     ∃ Found S,
       fillTransitiveSplitterCallers_Function fuel M SAA F ∅ = Some (Found, S) ∧
       (∀ h, h ∈ S ↔ (F = h ∨ reachesOpen M SAA F h) ∧ hits M SAA h) ∧
       (Found = true ↔ F ∈ S)).
Proof. forget_oracles.
  intros Hr. split.
  - intros Blocks Hfuel. unfold fillTransitiveSplitterCallers_Blocks.
    destruct (fillCalls_total (fillTransitiveSplitterCallers_Function fuel M SAA)
                (callees (concat Blocks))) with (S := (∅ : gset string))
      as [[Found S] E].
    { intros g S0 Hg. eapply fillTransitiveSplitterCallers_Function_total; eauto.
      by intros f' g'; apply ranked_calls. }
    exists Found, S. split; [done|].
    eapply fillCalls_spec in E as (HFound & HS & _);
      [|by intros; eapply fillTransitiveSplitterCallers_Function_spec
       |apply filled_empty].
    assert (HS' : ∀ h, h ∈ S ↔
              scopeReachesOpen M SAA (callees (concat Blocks)) h ∧ hits M SAA h).
    { intros h. rewrite HS. unfold scopeReachesOpen, visit.
      split; [intros [H|H]; [by apply not_elem_of_empty in H|]|]; naive_solver. }
    split_and!; [done| |].
    + rewrite HFound. split.
      * intros (g & Hg & Hh). exists g. apply HS'. split; [|done]. exists g. auto.
      * intros (h & (Hh & Hhit)%HS'). destruct Hh as (g & Hg & Hgh).
        exists g. split; [done|]. by apply (visit_hits M SAA g h).
    + intros g h s Hg Hgh Hhs Hs. apply HS'. split; [by exists g|].
      right. eauto.
  - intros F HF.
    destruct (fillTransitiveSplitterCallers_Function_total M SAA rank fuel
                (λ f g, ranked_calls M rank f g Hr) F ∅ HF) as [[Found S] E].
    exists Found, S. split; [done|].
    apply fillTransitiveSplitterCallers_Function_spec in E as (HFound & HS & _);
      [|apply filled_empty].
    assert (HS' : ∀ h, h ∈ S ↔ (F = h ∨ reachesOpen M SAA F h) ∧ hits M SAA h).
    { intros h. rewrite HS. unfold visit.
      split; [intros [H|H]; [by apply not_elem_of_empty in H|done]|auto]. }
    split; [done|]. rewrite HFound, HS'. naive_solver.
Qed.

(** ** A scope in which no scan acts *)

Lemma inlineCallsInBasicBlock_quiet fuel M F b SC SAA :
  Forall (λ g, actionable M SC SAA g = false) (callees (getBlock M F b)) →
  inlineCallsInBasicBlock (S fuel) M F b SC SAA = Some (false, M).
Proof.
  intros Hq. simpl. by apply (scanBlock_None M F b SC SAA []) in Hq as ->.
Qed.

Lemma firstChangedBlock_quiet fuel M F SC SAA bs :
  (∀ b, b ∈ bs →
        Forall (λ g, actionable M SC SAA g = false) (callees (getBlock M F b))) →
  firstChangedBlock (λ M b, inlineCallsInBasicBlock (S fuel) M F b SC SAA) M bs
  = Some (false, M).
Proof.
  induction bs as [|b bs IH]; intros Hq; [done|].
  cbn [firstChangedBlock]. rewrite inlineCallsInBasicBlock_quiet by set_solver.
  simpl. apply IH. set_solver.
Qed.

Lemma inlineCallsInFunction_quiet fuel M F SC SAA :
  (∀ b, Forall (λ g, actionable M SC SAA g = false) (callees (getBlock M F b))) →
  inlineCallsInFunction (S (S fuel)) M F SC SAA = Some (false, M).
Proof.
  intros Hq. cbn [inlineCallsInFunction].
  by rewrite firstChangedBlock_quiet by auto.
Qed.

Lemma inlineCallsInLoop_from_quiet fuel M F B L SC SAA :
  (∀ b, b ∈ getBlocks L →
        Forall (λ g, actionable M SC SAA g = false) (callees (getBlock M F b))) →
  inlineCallsInLoop_from (S (S fuel)) M F B L SC SAA = Some (false, M, L).
Proof.
  intros Hq. cbn [inlineCallsInLoop_from].
  by rewrite firstChangedBlock_quiet by auto.
Qed.

(** C7: on a call graph that is not recursive, a kernel from which no
    splitter is reachable through direct calls is left as it is, module and
    all, and both entry points report "no change", in either scope. *)
Theorem no_splitter_no_change (M : Module) (SAA : SplitterAnnotationInfo)
    (F : string) (rank : string → nat) (fuel : nat) :
  ranked M rank = true →
  isKernelFunc SAA F = true →
  (∀ s, reaches M F s → isSplitterFunc SAA s = false) →
  rank F + 1 < fuel →
  runOnFunction fuel M SAA F = Some (false, M) ∧
  run fuel M (Some SAA) F = Some (PreservedAll, M).
Proof.
  intros Hd%ranked_descending HK Hno Hfuel.
  assert (Hcalls : ∀ g, calls M F g → ¬ hits M SAA g).
  { intros g Hc [Hs|(s & Hgs & Hs)].
    - rewrite Hno in Hs; [done|by apply reaches_call].
    - rewrite Hno in Hs; [done|by eapply reaches_step]. }
  assert (Hmain : inlineSplitter_Function fuel M F SAA = Some (false, M)).
  { unfold inlineSplitter_Function.
    destruct (getSingleWorkItemLoop (getBody M F)) as [L|].
    - unfold inlineSplitter_Loop. destruct (isWorkItemLoop L); [|done]. simpl.
      unfold fillTransitiveSplitterCallers_Loop.
      destruct (fillTransitiveSplitterCallers_Blocks_total M SAA rank fuel
                  ((λ b, getBlock M F b) <$> getBlocks L) Hd) as [[Found S] E].
      { intros g (b & _ & Hg)%loop_blocks_calls. apply getBlock_calls in Hg.
        pose proof (Hd F g Hg). lia. }
      rewrite E. simpl.
      apply fillTransitiveSplitterCallers_Blocks_spec in E as (HFound & _).
      destruct Found; [|done]. exfalso.
      destruct HFound as [(g & (b & _ & Hg)%loop_blocks_calls & Hh) _]; [done|].
      apply getBlock_calls in Hg. by apply (Hcalls g Hg).
    - destruct (fillTransitiveSplitterCallers_Function_total M SAA rank fuel Hd F ∅)
        as [[Found S] E]; [lia|].
      rewrite E. simpl.
      apply fillTransitiveSplitterCallers_Function_spec in E as (_ & HS & Hf);
        [|apply filled_empty].
      destruct Found; [|done]. simpl.
      destruct fuel as [|[|fuel]]; [lia..|].
      apply inlineCallsInFunction_quiet. intros b.
      apply Forall_forall. intros g Hg%getBlock_calls.
      assert (Hns : isSplitterFunc SAA g = false).
      { apply Hno. by apply reaches_call. }
      unfold actionable. rewrite Hns, andb_true_r. simpl.
      case_bool_decide as Hin; [|done]. exfalso.
      destruct (Hf g Hin) as [Hh _]. by apply (Hcalls g). }
  unfold runOnFunction, run. by rewrite HK, Hmain.
Qed.

(** ** The effect of one scan *)

Lemma concat_insert_perm (body : Body) b blk blk' :
  body !! b = Some blk →
  ∃ rest, concat body ≡ₚ blk ++ rest ∧ concat (<[b := blk']> body) ≡ₚ blk' ++ rest.
Proof.
  intros Hb. exists (concat (take b body) ++ concat (drop (S b) body)). split.
  - rewrite <- (take_drop_middle body b blk) at 1 by done.
    rewrite concat_app. simpl. rewrite !app_assoc.
    apply Permutation_app_tail, Permutation_app_comm.
  - rewrite insert_take_drop by by eapply lookup_lt_Some.
    rewrite concat_app. simpl. rewrite !app_assoc.
    apply Permutation_app_tail, Permutation_app_comm.
Qed.

Lemma callees_perm l1 l2 : l1 ≡ₚ l2 → callees l1 ≡ₚ callees l2.
Proof.
  induction 1 as [|i l1 l2 _ IH|i j l|l1 l2 l3 _ IH1 _ IH2].
  - done.
  - destruct i as [[g|]|op]; simpl; [by constructor|done..].
  - destruct i as [[g|]|op], j as [[h|]|op']; simpl; try done. apply perm_swap.
  - by etrans.
Qed.

(** What a scan that acts does to the module: block [b] of [F], which is
    [q ++ Call (Some g) :: post], becomes [blk'], and the blocks [extra] are
    appended to [F]; together they hold [q], [post] and, in place of the
    call, the calls [news]: those of the body of [g] when [g] is inlined, a
    call to the barrier intrinsic when [g] is lowered. *)
Lemma step_summary M F b SC SAA M' :
  step M F b SC SAA M' →
  ∃ q g post blk' (extra : Body) news,
    getBody M F !! b = Some (q ++ Call (Some g) :: post) ∧
    Forall (λ g, actionable M SC SAA g = false) (callees q) ∧
    actionable M SC SAA g = true ∧
    M' = <[F := <[b := blk']> (getBody M F) ++ extra]> M ∧
    callees blk' ++ callees (concat extra) ≡ₚ callees q ++ news ++ callees post ∧
    ((g ∈ SC ∧ isSplitterFunc SAA g = false ∧ g ≠ BarrierIntrinsicName ∧
      getBody M g ≠ [] ∧ news = callees (concat (getBody M g))) ∨
     (isSplitterFunc SAA g = true ∧ g ≠ BarrierIntrinsicName ∧
      news = [BarrierIntrinsicName])).
Proof.
  unfold step. intros Hs.
  apply scanBlock_Some in Hs as (q & g & post & Hblk & Hq & Hact).
  assert (Hb : getBody M F !! b = Some (q ++ Call (Some g) :: post)).
  { unfold getBlock in Hblk. destruct (getBody M F !! b); simpl in Hblk; [by subst|].
    by destruct q. }
  simpl in Hact.
  destruct Hact as [(Hin & Hns & Hinl)|(Hsp & Hne & ->)].
  - unfold checkedInlineFunction in Hinl. case_bool_decide as Hne; [done|].
    assert (Hactg : actionable M SC SAA g = true).
    { unfold actionable, inlinable. rewrite bool_decide_eq_true_2, Hns by done. simpl.
      rewrite bool_decide_eq_false_2 by done. simpl.
      apply negb_true_iff, bool_decide_eq_false. intros E. by rewrite E in Hinl. }
    destruct (getBody M g) as [|c [|c' cs]] eqn:Hg; [done| |]; injection Hinl as <-.
    + exists q, g, post, (q ++ c ++ post), [], (callees c).
      rewrite app_nil_r. split_and!; [done..| |].
      * simpl. by rewrite !app_nil_r, !callees_app.
      * left. rewrite Hg. split_and!; try done. simpl. by rewrite app_nil_r.
    + exists q, g, post, (q ++ c), (c' :: cs ++ [post]), (callees (concat (c :: c' :: cs))).
      split_and!; [done..| |].
      * change (c' :: cs ++ [post]) with ((c' :: cs) ++ [post]).
        rewrite !concat_app. simpl.
        rewrite !callees_app, app_nil_r.
        by rewrite <- !app_assoc.
      * left. by rewrite Hg.
  - exists q, g, post, (q ++ Call (Some BarrierIntrinsicName) :: post), [],
           [BarrierIntrinsicName].
    split_and!; [done..| | | |].
    + unfold actionable. rewrite Hsp, andb_false_r. simpl.
      by rewrite bool_decide_eq_false_2.
    + unfold lowerCall. by rewrite app_nil_r.
    + simpl. by rewrite app_nil_r, callees_app.
    + right. done.
Qed.

(** ** The work left decreases *)

Lemma sum_list_with_ext {A} (f g : A → nat) l :
  (∀ x, x ∈ l → f x = g x) → sum_list_with f l = sum_list_with g l.
Proof.
  induction l as [|x l IH]; intros Hfg; simpl; [done|].
  rewrite Hfg, IH; [done| |]; set_solver.
Qed.

Lemma weight_stable M SAA rank :
  descending M rank →
  ∀ n m g, rank g < n → rank g < m → weight n M SAA g = weight m M SAA g.
Proof.
  intros Hd. induction n as [|n IH]; intros [|m] g Hn Hm; try lia. simpl.
  case_bool_decide; [done|]. destruct (isSplitterFunc SAA g); [done|].
  f_equal. apply sum_list_with_ext. intros h Hh.
  pose proof (Hd g h Hh). apply IH; lia.
Qed.

Lemma callWeight_unfold M SAA rank g :
  descending M rank → g ≠ BarrierIntrinsicName → isSplitterFunc SAA g = false →
  callWeight M SAA rank g =
  S (sum_list_with (callWeight M SAA rank) (callees (concat (getBody M g)))).
Proof.
  intros Hd Hne Hns. unfold callWeight at 1. simpl.
  rewrite bool_decide_eq_false_2, Hns by done. f_equal.
  apply sum_list_with_ext. intros h Hh. pose proof (Hd g h Hh).
  unfold callWeight. apply weight_stable with (rank := rank); [done|lia..].
Qed.

Lemma callWeight_intrinsic M SAA rank :
  callWeight M SAA rank BarrierIntrinsicName = 0.
Proof. unfold callWeight. simpl. by rewrite bool_decide_eq_true_2. Qed.

Lemma callWeight_splitter M SAA rank g :
  g ≠ BarrierIntrinsicName → isSplitterFunc SAA g = true →
  callWeight M SAA rank g = 1.
Proof.
  intros Hne Hs. unfold callWeight. simpl.
  by rewrite bool_decide_eq_false_2, Hs.
Qed.

(** The calls of [F] before and after a scan that acts. *)
Lemma step_callees M F b SC SAA M' :
  step M F b SC SAA M' →
  ∃ g news X,
    callees (concat (getBody M F)) ≡ₚ g :: X ∧
    callees (concat (getBody M' F)) ≡ₚ news ++ X ∧
    (∀ G, G ≠ F → M' !! G = M !! G) ∧
    length (getBody M F) ≤ length (getBody M' F) ∧
    ((g ∈ SC ∧ isSplitterFunc SAA g = false ∧ g ≠ BarrierIntrinsicName ∧
      getBody M g ≠ [] ∧ news = callees (concat (getBody M g))) ∨
     (isSplitterFunc SAA g = true ∧ g ≠ BarrierIntrinsicName ∧
      news = [BarrierIntrinsicName])).
Proof.
  intros (q & g & post & blk' & extra & news & Hb & _ & _ & -> & Hperm & Hkind)%step_summary.
  destruct (concat_insert_perm (getBody M F) b _ blk' Hb) as (rest & Hold & Hnew).
  exists g, news, (callees q ++ callees post ++ callees rest).
  rewrite getBody_insert_eq. split_and!; [| | | |done].
  - rewrite (callees_perm _ _ Hold), !callees_app. simpl.
    rewrite <- app_assoc. simpl. symmetry. apply Permutation_middle.
  - rewrite concat_app, callees_app, (callees_perm _ _ Hnew), callees_app.
    rewrite <- app_assoc, (Permutation_app_comm (callees rest)), app_assoc, Hperm.
    rewrite <- !app_assoc. apply Permutation_app_swap_app.
  - intros G HG. by rewrite lookup_insert_ne.
  - rewrite length_app, length_insert. lia.
Qed.

Lemma step_tracks M0 rank F M b SC SAA M' :
  descending M0 rank → tracks M0 rank F M → step M F b SC SAA M' →
  tracks M0 rank F M' ∧ pending M0 SAA rank M' F < pending M0 SAA rank M F.
Proof.
  intros Hd [Hoff Hcalls] (g & news & X & Hold & Hnew & Hoff' & _ & Hkind)%step_callees.
  assert (Hg : calls M F g).
  { unfold calls. rewrite Hold. set_solver. }
  assert (Hnews : ∀ h, h ∈ news → h = BarrierIntrinsicName ∨ rank h < rank F).
  { intros h Hh. destruct Hkind as [(_ & _ & Hne & _ & ->)|(_ & _ & ->)].
    - destruct (Hcalls g Hg) as [|Hlt]; [done|]. right.
      assert (g ≠ F) by (intros ->; lia).
      unfold getBody in Hh. rewrite Hoff in Hh by done.
      pose proof (Hd g h Hh). lia.
    - left. set_solver. }
  split; [split|].
  - intros G HG. by rewrite Hoff', Hoff.
  - intros h Hh. unfold calls in Hh. rewrite Hnew in Hh.
    apply elem_of_app in Hh as [Hh|Hh]; [by apply Hnews|].
    apply Hcalls. unfold calls. rewrite Hold. set_solver.
  - unfold pending. rewrite Hnew, Hold, sum_list_with_app. simpl.
    destruct Hkind as [(_ & Hns & Hne & _ & ->)|(Hs & Hne & ->)].
    + destruct (Hcalls g Hg) as [|Hlt]; [done|].
      assert (g ≠ F) by (intros ->; lia).
      rewrite (callWeight_unfold M0 SAA rank g) by done.
      unfold getBody. rewrite Hoff by done. fold (getBody M0 g). lia.
    + simpl. rewrite callWeight_intrinsic, callWeight_splitter by done. lia.
Qed.

(** ** The inliner returns on a call graph that is not recursive *)

Section Termination.
Context (M0 : Module) (SAA : SplitterAnnotationInfo) (rank : string → nat).
Context (F : string) (SC : gset string).
Hypothesis Hd : descending M0 rank.

Lemma inlineCallsInBasicBlock_total b fuel :
  ∀ M, tracks M0 rank F M → pending M0 SAA rank M F < fuel →
  ∃ c M', inlineCallsInBasicBlock fuel M F b SC SAA = Some (c, M') ∧
          tracks M0 rank F M' ∧
          pending M0 SAA rank M' F ≤ pending M0 SAA rank M F ∧
          (c = true → pending M0 SAA rank M' F < pending M0 SAA rank M F).
Proof using Hd.
  induction fuel as [|fuel IH]; intros M Ht Hfuel; [lia|]. simpl.
  destruct (scanBlock M F b SC SAA [] (getBlock M F b)) as [M1|] eqn:E.
  - destruct (step_tracks M0 rank F M b SC SAA M1 Hd Ht E) as [Ht1 Hlt].
    destruct (IH M1 Ht1) as (c & M' & -> & Ht' & Hle & _); [lia|].
    simpl. exists true, M'. split_and!; [done|done|lia|lia].
  - exists false, M. split_and!; [done|done|lia|done].
Qed.

Lemma firstChangedBlock_total fuel bs :
  ∀ M, tracks M0 rank F M → pending M0 SAA rank M F < fuel →
  ∃ c M',
    firstChangedBlock (λ M b, inlineCallsInBasicBlock fuel M F b SC SAA) M bs
    = Some (c, M') ∧
    tracks M0 rank F M' ∧
    pending M0 SAA rank M' F ≤ pending M0 SAA rank M F ∧
    (c = true → pending M0 SAA rank M' F < pending M0 SAA rank M F).
Proof using Hd.
  induction bs as [|b bs IH]; intros M Ht Hfuel; cbn [firstChangedBlock].
  - exists false, M. split_and!; [done|done|lia|done].
  - destruct (inlineCallsInBasicBlock_total b fuel M Ht Hfuel)
      as (c & M1 & -> & Ht1 & Hle & Hlt). simpl.
    destruct c.
    + exists true, M1. split_and!; [done|done|lia|auto].
    + destruct (IH M1 Ht1) as (c & M' & -> & Ht' & Hle' & Hlt'); [lia|].
      exists c, M'. split_and!; [done|done|lia|]. intros Hc. specialize (Hlt' Hc). lia.
Qed.

Lemma inlineCallsInFunction_total fuel :
  ∀ M, tracks M0 rank F M → pending M0 SAA rank M F + 1 < fuel →
  ∃ c M', inlineCallsInFunction fuel M F SC SAA = Some (c, M') ∧
          tracks M0 rank F M'.
Proof using Hd.
  induction fuel as [|fuel IH]; intros M Ht Hfuel; [lia|].
  cbn [inlineCallsInFunction].
  destruct (firstChangedBlock_total fuel (seq 0 (length (getBody M F))) M Ht)
    as (c & M1 & -> & Ht1 & Hle & Hlt); [lia|]. simpl.
  destruct c.
  - destruct (IH M1 Ht1) as (c & M' & -> & Ht'); [specialize (Hlt eq_refl); lia|].
    simpl. eauto.
  - eauto.
Qed.

Lemma inlineCallsInLoop_from_total B fuel :
  ∀ M L, tracks M0 rank F M → pending M0 SAA rank M F + 1 < fuel →
  ∃ c M' L', inlineCallsInLoop_from fuel M F B L SC SAA = Some (c, M', L') ∧
             tracks M0 rank F M'.
Proof using Hd.
  induction fuel as [|fuel IH]; intros M L Ht Hfuel; [lia|].
  cbn [inlineCallsInLoop_from].
  destruct (firstChangedBlock_total fuel (getBlocks L) M Ht)
    as (c & M1 & -> & Ht1 & Hle & Hlt); [lia|]. simpl.
  destruct c.
  - destruct (IH M1 (updateDtAndLi (getBody M1 F) B) Ht1)
      as (c & M' & L' & -> & Ht'); [specialize (Hlt eq_refl); lia|].
    simpl. eauto.
  - eauto.
Qed.
End Termination.

Lemma tracks_start M rank F : descending M rank → tracks M rank F M.
Proof. intros Hd. split; [done|]. intros g Hg. right. by apply Hd. Qed.

(** ** What the inliner preserves, and where it stops *)

Section Invariants.
Context (F : string) (SC : gset string) (SAA : SplitterAnnotationInfo).
Context (P : Module → Prop) (R : nat → Prop).
Hypothesis Hstep : ∀ M b M', R b → P M → step M F b SC SAA M' → P M'.

Lemma inlineCallsInBasicBlock_inv b fuel :
  R b → ∀ M c M', P M →
  inlineCallsInBasicBlock fuel M F b SC SAA = Some (c, M') →
  P M' ∧ quiet M' F SC SAA b ∧ (c = false → M' = M).
Proof using Hstep.
  intros Hb. induction fuel as [|fuel IH]; intros M c M' HP; simpl; [done|].
  destruct (scanBlock M F b SC SAA [] (getBlock M F b)) as [M1|] eqn:E.
  - destruct (inlineCallsInBasicBlock fuel M1 F b SC SAA) as [[c1 M2]|] eqn:E1;
      simpl; [|done].
    intros [= <- <-]. apply IH in E1 as (HP' & Hq & _); [|by eapply Hstep].
    done.
  - intros [= <- <-]. split_and!; [done| |done].
    by apply (scanBlock_None M F b SC SAA []).
Qed.

Lemma firstChangedBlock_inv fuel bs :
  (∀ b, b ∈ bs → R b) → ∀ M c M', P M →
  firstChangedBlock (λ M b, inlineCallsInBasicBlock fuel M F b SC SAA) M bs
  = Some (c, M') →
  P M' ∧ (c = false → M' = M ∧ ∀ b, b ∈ bs → quiet M F SC SAA b).
Proof using Hstep.
  induction bs as [|b bs IH]; intros Hbs M c M' HP; cbn [firstChangedBlock].
  - intros [= <- <-]. split; [done|]. intros _. split; [done|].
    intros b Hb. by apply not_elem_of_nil in Hb.
  - destruct (inlineCallsInBasicBlock fuel M F b SC SAA) as [[c1 M1]|] eqn:E1;
      simpl; [|done].
    apply inlineCallsInBasicBlock_inv in E1 as (HP1 & Hq1 & Heq1);
      [|set_solver|done].
    destruct c1.
    + intros [= <- <-]. done.
    + specialize (Heq1 eq_refl). subst M1. intros E.
      apply IH in E as (HP' & Hc); [|set_solver|done].
      split; [done|]. intros Hcf. destruct (Hc Hcf) as [-> Hq].
      split; [done|]. intros b' [->|Hb']%elem_of_cons; auto.
Qed.

Lemma inlineCallsInLoop_from_inv B fuel :
  (∀ body b, b ∈ getBlocks (updateDtAndLi body B) → R b) →
  ∀ M L c M' L', (∀ b, b ∈ getBlocks L → R b) → P M →
  inlineCallsInLoop_from fuel M F B L SC SAA = Some (c, M', L') →
  P M' ∧ (∀ b, b ∈ getBlocks L' → quiet M' F SC SAA b) ∧
  (c = false → M' = M ∧ L' = L) ∧
  (c = true → L' = updateDtAndLi (getBody M' F) B).
Proof using Hstep.
  intros Hupd. induction fuel as [|fuel IH]; intros M L c M' L' HL HP; [done|].
  cbn [inlineCallsInLoop_from].
  destruct (firstChangedBlock _ M (getBlocks L)) as [[c1 M1]|] eqn:E1; simpl; [|done].
  apply firstChangedBlock_inv in E1 as (HP1 & Hc1); [|done..].
  destruct c1.
  - destruct (inlineCallsInLoop_from fuel M1 F B _ SC SAA) as [[[c2 M2] L2]|] eqn:E2;
      simpl; [|done].
    intros [= <- <- <-].
    apply IH in E2 as (HP2 & Hq2 & Hf2 & Ht2); [|by apply Hupd|done].
    split_and!; [done|done|done|]. intros _.
    destruct c2; [by apply Ht2|]. by destruct (Hf2 eq_refl) as [-> ->].
  - intros [= <- <- <-]. destruct (Hc1 eq_refl) as [-> Hq].
    split_and!; [done|done|done|done].
Qed.
End Invariants.

Lemma quiet_out_of_range M F SC SAA b :
  length (getBody M F) ≤ b → quiet M F SC SAA b.
Proof.
  intros Hb. unfold quiet, getBlock. rewrite lookup_ge_None_2 by done. constructor.
Qed.

Lemma inlineCallsInFunction_inv F SC SAA (P : Module → Prop) :
  (∀ M b M', P M → step M F b SC SAA M' → P M') →
  ∀ fuel M c M', P M →
  inlineCallsInFunction fuel M F SC SAA = Some (c, M') →
  P M' ∧ (∀ b, quiet M' F SC SAA b) ∧ (c = false → M' = M).
Proof.
  intros Hstep. induction fuel as [|fuel IH]; intros M c M' HP; [done|].
  cbn [inlineCallsInFunction].
  destruct (firstChangedBlock _ M _) as [[c1 M1]|] eqn:E1; simpl; [|done].
  apply firstChangedBlock_inv with (P := P) (R := λ _, True) in E1 as (HP1 & Hc1);
    [|by intros; eapply Hstep|done..].
  destruct c1.
  - destruct (inlineCallsInFunction fuel M1 F SC SAA) as [[c2 M2]|] eqn:E2;
      simpl; [|done].
    intros [= <- <-]. apply IH in E2 as (HP2 & Hq2 & _); done.
  - intros [= <- <-]. destruct (Hc1 eq_refl) as [-> Hq].
    split_and!; [done| |done]. intros b.
    destruct (decide (b < length (getBody M F))) as [Hlt|Hge].
    + apply Hq, elem_of_seq. lia.
    + apply quiet_out_of_range. lia.
Qed.

(** A scan leaves no function without a body that had one. *)
Lemma step_keeps_bodies M F b SC SAA M' g :
  step M F b SC SAA M' → getBody M g ≠ [] → getBody M' g ≠ [].
Proof.
  intros (h & news & X & _ & _ & Hoff & Hlen & _)%step_callees Hg.
  destruct (decide (g = F)) as [->|Hne].
  - destruct (getBody M F), (getBody M' F); simpl in *; try done. lia.
  - unfold getBody. by rewrite Hoff.
Qed.

(** The functions of a set that the finder has filled, splitters apart,
    have bodies. *)
Lemma filled_has_body M SAA S g :
  filled M SAA S → g ∈ S → isSplitterFunc SAA g = false → getBody M g ≠ [].
Proof.
  intros Hf Hg Hns. destruct (Hf g Hg) as [Hh _].
  apply hits_inv in Hh as (h & Hc & _); [|done].
  unfold calls in Hc. intros E. rewrite E in Hc. by apply not_elem_of_nil in Hc.
Qed.

(** A scan that reaches a call to a function of the caller set that is not
    a splitter and not named as the barrier intrinsic inlines it: the call
    instruction gives way to the blocks of the callee, and no other
    function of the module changes. *)
Lemma scan_inlines (M : Module) (F : string) (b : nat)
    (SplitterCallers : gset string) (SAA : SplitterAnnotationInfo)
    (pre post : BasicBlock) (g : string) (c : BasicBlock) (cs : Body) :
  getBlock M F b = pre ++ Call (Some g) :: post →
  Forall (λ h, actionable M SplitterCallers SAA h = false) (callees pre) →
  g ∈ SplitterCallers →
  isSplitterFunc SAA g = false →
  g ≠ BarrierIntrinsicName →
  getBody M g = c :: cs →
  ∃ M', scanBlock M F b SplitterCallers SAA [] (getBlock M F b) = Some M' ∧
        getBody M' F =
          match cs with
          | [] => <[b := pre ++ c ++ post]> (getBody M F)
          | _ => <[b := pre ++ c]> (getBody M F) ++ cs ++ [post]
          end ∧
        ∀ G, G ≠ F → M' !! G = M !! G.
Proof.
  intros Hblk Hpre Hin Hns Hne Hbody.
  rewrite Hblk, (scanBlock_skip _ _ _ _ _ [] pre) by done. simpl.
  rewrite bool_decide_eq_true_2, Hns by done. simpl.
  unfold checkedInlineFunction. rewrite bool_decide_eq_false_2, Hbody by done.
  destruct cs as [|c' cs]; eexists; (split; [done|]);
    rewrite getBody_insert_eq; (split; [done|]);
    intros G HG; by rewrite lookup_insert_ne.
Qed.

(** In a block on which no scan acts, a call into the caller set is a call
    to the barrier intrinsic, as long as the members of the set that are
    not splitters have bodies. *)
Lemma quiet_no_splitter_caller M F SC SAA b g :
  (∀ h, h ∈ SC → isSplitterFunc SAA h = false → getBody M h ≠ []) →
  quiet M F SC SAA b → g ∈ callees (getBlock M F b) → g ∈ SC →
  g = BarrierIntrinsicName.
Proof.
  intros Hbodies Hq Hg Hin. unfold quiet in Hq. rewrite Forall_forall in Hq.
  specialize (Hq g Hg). unfold actionable, inlinable in Hq.
  rewrite bool_decide_eq_true_2 in Hq by done. simpl in Hq.
  destruct (decide (g = BarrierIntrinsicName)) as [|Hne]; [done|exfalso].
  rewrite (bool_decide_eq_false_2 (g = BarrierIntrinsicName)) in Hq by done.
  destruct (isSplitterFunc SAA g) eqn:Hs; simpl in Hq; [done|].
  apply negb_false_iff, bool_decide_eq_true in Hq. by apply (Hbodies g).
Qed.


(** C9: when the classifier identifies a loop, a block of the function that
    is outside the loop, as identified and as recomputed in the course of
    the pass, comes out of the pass as it went in, whatever it calls; so
    does every other function of the module. *)
Theorem loop_scope_frame (fuel : nat) (M : Module) (F : string)
    (SAA : SplitterAnnotationInfo) (L : Loop) (c : bool) (M' : Module) :
  getSingleWorkItemLoop (getBody M F) = Some L →
  runOnFunction fuel M SAA F = Some (c, M') →
  (∀ b, b < length (getBody M F) →
        b ∉ getBlocks L →
        (∀ body, b ∉ getBlocks (updateDtAndLi body (hd 0 (getBlocks L)))) →
        getBody M' F !! b = getBody M F !! b) ∧
  (∀ G, G ≠ F → M' !! G = M !! G).
Proof.
  intros HL. unfold runOnFunction, inlineSplitter_Function.
  destruct (isKernelFunc SAA F); simpl; [|by intros [= <- <-]].
  rewrite HL. unfold inlineSplitter_Loop.
  destruct (isWorkItemLoop L); simpl; [|by intros [= <- <-]].
  destruct (fillTransitiveSplitterCallers_Loop _ _ _ _ _ _) as [[Found SC]|];
    simpl; [|done].
  destruct Found; simpl; [|by intros [= <- <-]].
  unfold inlineCallsInLoop.
  destruct (inlineCallsInLoop_from _ _ _ _ _ _ _) as [[[c1 M1] L1]|] eqn:E; simpl; [|done].
  intros [= <- <-].
  set (n0 := length (getBody M F)) in *.
  assert (Hframe : ∀ R : nat → Prop,
            (∀ b, b ∈ getBlocks L → R b) →
            (∀ body b, b ∈ getBlocks (updateDtAndLi body (hd 0 (getBlocks L))) → R b) →
            (∀ G, G ≠ F → M1 !! G = M !! G) ∧
            (∀ b, b < n0 → ¬ R b → getBody M1 F !! b = getBody M F !! b)).
  { intros R HRL HRupd.
    set (P := λ M2 : Module,
            (∀ G, G ≠ F → M2 !! G = M !! G) ∧
            n0 ≤ length (getBody M2 F) ∧
            (∀ b, b < n0 → ¬ R b → getBody M2 F !! b = getBody M F !! b)).
    assert (HPstep : ∀ M2 b M3, R b → P M2 → step M2 F b SC SAA M3 → P M3).
    { intros M2 b M3 Hb (Hoff & Hlen & Hblocks) Hs.
      apply step_summary in Hs
        as (q & g & post & blk' & extra & news & Hq & _ & _ & -> & _).
      unfold P. rewrite getBody_insert_eq. split_and!.
      - intros G HG. rewrite lookup_insert_ne by done. by apply Hoff.
      - rewrite length_app, length_insert. lia.
      - intros b' Hb' Hout. rewrite lookup_app_l by (rewrite length_insert; lia).
        rewrite list_lookup_insert_ne; [by apply Hblocks|]. by intros ->. }
    assert (HP0 : P M) by (unfold P; auto).
    destruct (inlineCallsInLoop_from_inv F SC SAA P R HPstep _ fuel HRupd M L c1 M1 L1)
      as ((Hoff & _ & Hblocks) & _); [done..|].
    auto. }
  split.
  - intros b Hb HbL Hbupd.
    apply (Hframe (λ b', b' ≠ b)); [| |done|].
    + intros b' Hin ->. by apply HbL.
    + intros body b' Hin ->. by apply (Hbupd body).
    + by intros H.
  - by apply (Hframe (λ _, True)).
Qed.

(** ** A second run of the pass *)

Lemma reaches_off M M' rank F :
  descending M rank → (∀ G, G ≠ F → M' !! G = M !! G) →
  ∀ g s, reaches M' g s → rank g < rank F → reaches M g s.
Proof.
  intros Hd Hoff g s Hr. induction Hr as [f g Hc|f g h Hc _ IH]; intros Hlt.
  - apply reaches_call. unfold calls, getBody in *. rewrite Hoff in Hc; [done|].
    intros ->. lia.
  - assert (Hc' : calls M f g).
    { unfold calls, getBody in *. rewrite Hoff in Hc; [done|]. intros ->. lia. }
    eapply reaches_step; [done|]. apply IH. pose proof (Hd f g Hc'). lia.
Qed.

Lemma hits_off M M' SAA rank F g :
  descending M rank → (∀ G, G ≠ F → M' !! G = M !! G) →
  rank g < rank F → hits M' SAA g → hits M SAA g.
Proof.
  intros Hd Hoff Hlt [Hs|(s & Hr & Hs)]; [by left|right].
  exists s. split; [|done]. by eapply reaches_off.
Qed.

Lemma reachesOpen_snoc M SAA f g h :
  reachesOpen M SAA f g → isSplitterFunc SAA g = false → calls M g h →
  reachesOpen M SAA f h.
Proof.
  induction 1; intros Hns Hc.
  - eapply reachesOpen_step; [done..|]. by apply reachesOpen_call.
  - eapply reachesOpen_step; [done..|]. by apply IHreachesOpen.
Qed.

Lemma scopeReachesOpen_step M SAA gs g h :
  scopeReachesOpen M SAA gs g → isSplitterFunc SAA g = false → calls M g h →
  scopeReachesOpen M SAA gs h.
Proof.
  intros (g0 & Hg0 & [Heq|Hr]) Hns Hc; exists g0; (split; [done|right]).
  - subst g0. by apply reachesOpen_call.
  - by eapply reachesOpen_snoc.
Qed.

(** The calls of a block after a scan that acts: those of the same block
    before, if the block is another old block; else calls of the block of
    the scan, or calls that the scan brought in. *)
Lemma step_block_calls M1 F b SC SAA M2 :
  step M1 F b SC SAA M2 →
  ∃ g news,
    g ∈ callees (getBlock M1 F b) ∧
    ((g ∈ SC ∧ isSplitterFunc SAA g = false ∧ g ≠ BarrierIntrinsicName ∧
      news = callees (concat (getBody M1 g))) ∨
     news = [BarrierIntrinsicName]) ∧
    ∀ b' h, h ∈ callees (getBlock M2 F b') →
      (b' ≠ b ∧ h ∈ callees (getBlock M1 F b')) ∨
      ((b' = b ∨ length (getBody M1 F) ≤ b') ∧
       (h ∈ callees (getBlock M1 F b) ∨ h ∈ news)).
Proof. forget_oracles.
  intros (q & g & post & blk' & extra & news & Hb & _ & _ & -> & Hperm & Hkind)%step_summary.
  exists g, news.
  assert (Hblk : getBlock M1 F b = q ++ Call (Some g) :: post).
  { unfold getBlock. by rewrite Hb. }
  assert (Hin : ∀ h, h ∈ callees blk' ++ callees (concat extra) →
                     h ∈ callees (getBlock M1 F b) ∨ h ∈ news).
  { intros h Hh. rewrite Hperm in Hh. rewrite Hblk, callees_app. simpl. set_solver. }
  split_and!.
  - rewrite Hblk, callees_app. simpl. set_solver.
  - destruct Hkind as [(? & ? & ? & _ & ?)|(_ & _ & ?)]; [left|right]; done.
  - intros b' h. unfold getBlock at 1. rewrite getBody_insert_eq.
    pose proof (lookup_lt_Some _ _ _ Hb) as Hlt.
    destruct (decide (b' < length (getBody M1 F))) as [Hlt'|Hge].
    + rewrite lookup_app_l by (by rewrite length_insert).
      destruct (decide (b' = b)) as [->|Hne].
      * rewrite list_lookup_insert_eq by done. simpl. intros Hh.
        right. split; [by left|]. apply Hin. set_solver.
      * rewrite list_lookup_insert_ne by done. intros Hh. left. done.
    + rewrite lookup_app_r by (rewrite length_insert; lia).
      rewrite length_insert.
      destruct (extra !! (b' - length (getBody M1 F))) as [blk|] eqn:E; simpl;
        [|by intros ?%not_elem_of_nil].
      intros Hh. right. split; [right; lia|]. apply Hin.
      apply elem_of_app. right. apply elem_of_callees_concat. exists blk.
      split; [by eapply list_elem_of_lookup_2|done].
Qed.

Lemma step_keeps_intrinsic M1 F b SC SAA M2 :
  step M1 F b SC SAA M2 →
  getBody M1 BarrierIntrinsicName = [] → getBody M2 BarrierIntrinsicName = [].
Proof.
  intros Hs Hnil. destruct (decide (BarrierIntrinsicName = F)) as [<-|Hne].
  - unfold step, getBlock in Hs. rewrite Hnil in Hs. done.
  - apply step_callees in Hs as (_ & _ & _ & _ & _ & Hoff & _).
    unfold getBody in *. by rewrite Hoff.
Qed.

Section SecondRun.
Context (M : Module) (SAA : SplitterAnnotationInfo) (rank : string → nat).
Context (F : string) (SC1 : gset string) (gs : list string) (Rg : nat → Prop).
Hypothesis Hd : descending M rank.

Local Abbreviation kept := (kept M SAA rank F gs Rg).

Lemma step_kept M1 b M2 :
  Rg b → kept M1 → step M1 F b SC1 SAA M2 → kept M2.
Proof using Hd.
  intros Hb (Ht & Hv & Hnil & Hlen) Hs.
  destruct (step_tracks M rank F M1 b SC1 SAA M2 Hd Ht Hs) as [Ht2 _].
  split_and!; [done| |by eapply step_keeps_intrinsic|].
  - destruct (step_block_calls _ _ _ _ _ _ Hs) as (g & news & Hg & Hkind & Hcalls).
    assert (Hnews : ∀ h, h ∈ news →
              h = BarrierIntrinsicName ∨ scopeReachesOpen M SAA gs h).
    { intros h Hh. destruct Hkind as [(Hin & Hns & Hne & ->)| ->].
      - right. destruct (Hv b g Hb Hg) as [|Hg']; [done|].
        destruct Ht as [Hoff Hrk].
        destruct (Hrk g (getBlock_calls _ _ _ _ Hg)) as [|Hlt]; [done|].
        assert (g ≠ F) by (intros ->; lia).
        unfold getBody in Hh. rewrite Hoff in Hh by done.
        by eapply scopeReachesOpen_step.
      - left. set_solver. }
    intros b' h Hb' Hh.
    destruct (Hcalls b' h Hh) as [[_ Hold]|[_ [Hold|Hn]]];
      [by apply (Hv b')|by apply (Hv b)|by apply Hnews].
  - apply step_callees in Hs as (_ & _ & _ & _ & _ & _ & Hlen2 & _). lia.
Qed.

Lemma kept_start :
  getBody M BarrierIntrinsicName = [] →
  (∀ b g, Rg b → g ∈ callees (getBlock M F b) → g ∈ gs) →
  kept M.
Proof using Hd.
  intros Hnil Hgs. split_and!; [by apply tracks_start| |done|done].
  intros b g Hb Hg. right. exists g. split; [by eapply Hgs|by left].
Qed.

(** A block of the first run's scope on which no scan acts with the set
    of the first run is one on which no scan acts with the set of the
    second. *)
Lemma second_run_quiet M' SC2 b :
  kept M' → Rg b →
  (∀ g, scopeReachesOpen M SAA gs g → hits M SAA g → g ∈ SC1) →
  (∀ g, g ∈ SC2 → hits M' SAA g) →
  quiet M' F SC1 SAA b → quiet M' F SC2 SAA b.
Proof using Hd.
  intros (Ht & Hv & _) Hb Hcover Hhits Hq. unfold quiet in *.
  rewrite Forall_forall in *. intros g Hg. specialize (Hq g Hg).
  unfold actionable in Hq |- *.
  destruct (isSplitterFunc SAA g) eqn:Hs.
  { by rewrite andb_false_r in Hq |- *. }
  rewrite andb_true_r in Hq |- *. simpl in Hq |- *.
  destruct (decide (g ∈ SC2)) as [Hin2|Hout];
    [rewrite (bool_decide_eq_true_2 (g ∈ SC2)) by done
    |by rewrite (bool_decide_eq_false_2 (g ∈ SC2))].
  destruct (decide (g = BarrierIntrinsicName)) as [->|Hne].
  { unfold inlinable. by rewrite bool_decide_eq_true_2. }
  destruct (Hv b g Hb Hg) as [|Hreach]; [done|].
  destruct Ht as [Hoff Hrk].
  destruct (Hrk g (getBlock_calls _ _ _ _ Hg)) as [|Hlt]; [done|].
  assert (Hin1 : g ∈ SC1).
  { apply Hcover; [done|]. eapply hits_off; eauto. }
  by rewrite (bool_decide_eq_true_2 (g ∈ SC1)) in Hq.
Qed.

Lemma kept_descending M' : kept M' → descending M' (rankAbove rank).
Proof using Hd.
  intros ([Hoff Hrk] & _ & Hnil & _) f g Hc. unfold rankAbove.
  destruct (decide (f = BarrierIntrinsicName)) as [->|Hf].
  { unfold calls in Hc. rewrite Hnil in Hc. by apply not_elem_of_nil in Hc. }
  rewrite (bool_decide_eq_false_2 (f = BarrierIntrinsicName)) by done.
  case_bool_decide; [lia|].
  destruct (decide (f = F)) as [->|HfF].
  - destruct (Hrk g Hc); [done|lia].
  - unfold calls, getBody in Hc. rewrite Hoff in Hc by done.
    pose proof (Hd f g Hc). lia.
Qed.
End SecondRun.

Lemma inlineSplitter_Function_idempotent fuel M SAA F rank c M' :
  descending M rank →
  getBody M BarrierIntrinsicName = [] →
  coherent M F M' →
  inlineSplitter_Function fuel M F SAA = Some (c, M') →
  ∀ fuel', rank F + 3 ≤ fuel' →
    inlineSplitter_Function fuel' M' F SAA = Some (false, M').
Proof.
  intros Hd Hnil Hcoh Hrun fuel' Hfuel'.
  unfold inlineSplitter_Function, coherent in *.
  destruct (getSingleWorkItemLoop (getBody M F)) as [L1|] eqn:HL.
  - (* the scope is a loop *)
    destruct Hcoh as (Hstable & L2 & HL2 & Hsub).
    unfold inlineSplitter_Loop in Hrun.
    destruct (isWorkItemLoop L1) eqn:HWI; simpl in Hrun; cycle 1.
    { injection Hrun as <- <-. rewrite HL. unfold inlineSplitter_Loop. by rewrite HWI. }
    destruct (fillTransitiveSplitterCallers_Loop fuel M SAA F L1 ∅)
      as [[Found1 SC1]|] eqn:Hfill1; simpl in Hrun; [|done].
    unfold fillTransitiveSplitterCallers_Loop in Hfill1.
    apply fillTransitiveSplitterCallers_Blocks_spec in Hfill1 as (HFound1 & HSC1 & _).
    set (gs := callees (concat ((λ b, getBlock M F b) <$> getBlocks L1))) in *.
    assert (Hgs : ∀ g, g ∈ gs → rank g < rank F).
    { intros g (b & _ & Hg)%loop_blocks_calls. by apply Hd, (getBlock_calls M F b). }
    destruct Found1; simpl in Hrun; cycle 1.
    { injection Hrun as <- <-. rewrite HL. unfold inlineSplitter_Loop. rewrite HWI. simpl.
      unfold fillTransitiveSplitterCallers_Loop. fold gs.
      destruct (fillTransitiveSplitterCallers_Blocks_total M SAA rank fuel'
                  ((λ b, getBlock M F b) <$> getBlocks L1) Hd) as [[Found2 SC2] E2].
      { intros g Hg. apply Hgs in Hg. lia. }
      rewrite E2. simpl.
      apply fillTransitiveSplitterCallers_Blocks_spec in E2 as (HFound2 & _).
      destruct Found2; [|done]. exfalso.
      destruct HFound2 as [H2 _], HFound1 as [_ H1].
      specialize (H1 (H2 eq_refl)). done. }
    unfold inlineCallsInLoop in Hrun.
    destruct (inlineCallsInLoop_from fuel M F _ L1 SC1 SAA) as [[[c1 M1] Lf]|] eqn:Hinl;
      simpl in Hrun; [|done].
    injection Hrun as <- <-.
    set (Rg := λ b, b ∈ getBlocks L1 ∨ length (getBody M F) ≤ b).
    assert (HR : ∀ body b,
              b ∈ getBlocks (updateDtAndLi body (hd 0 (getBlocks L1))) → Rg b).
    { intros body b Hb. unfold Rg.
      destruct (decide (b < length (getBody M F))); [left; by eapply Hstable|right; lia]. }
    assert (Hk0 : kept M SAA rank F gs Rg M).
    { apply kept_start; [done..|]. intros b g [Hb|Hb] Hg.
      - apply loop_blocks_calls. eauto.
      - unfold getBlock in Hg. rewrite lookup_ge_None_2 in Hg by done.
        by apply not_elem_of_nil in Hg. }
    destruct (inlineCallsInLoop_from_inv F SC1 SAA (kept M SAA rank F gs Rg) Rg
                (step_kept M SAA rank F SC1 gs Rg Hd)
                _ fuel HR M L1 c1 M1 Lf)
      as (Hk & Hq & Hcf & Hct); [by left|done|done|].
    assert (HLf : ∀ b, b ∈ getBlocks L2 → b ∈ getBlocks Lf ∧ Rg b).
    { intros b Hb. destruct c1.
      - rewrite (Hct eq_refl). split; [by apply Hsub|]. eapply HR. by apply Hsub.
      - destruct (Hcf eq_refl) as [-> ->]. rewrite HL in HL2. injection HL2 as <-.
        split; [done|by left]. }
    rewrite HL2. unfold inlineSplitter_Loop. destruct (isWorkItemLoop L2); [|done].
    simpl. unfold fillTransitiveSplitterCallers_Loop.
    pose proof (kept_descending M SAA rank F gs Rg Hd M1 Hk) as Hd'.
    destruct (fillTransitiveSplitterCallers_Blocks_total M1 SAA (rankAbove rank) fuel'
                ((λ b, getBlock M1 F b) <$> getBlocks L2) Hd') as [[Found2 SC2] E2].
    { intros g (b & _ & Hg)%loop_blocks_calls. apply getBlock_calls, Hd' in Hg.
      unfold rankAbove in Hg |- *. repeat case_bool_decide; lia. }
    rewrite E2. simpl.
    apply fillTransitiveSplitterCallers_Blocks_spec in E2 as (_ & _ & Hf2).
    destruct Found2; [|done]. simpl.
    destruct fuel' as [|[|fuel'']]; [lia..|].
    unfold inlineCallsInLoop. rewrite inlineCallsInLoop_from_quiet; [done|].
    intros b Hb. destruct (HLf b Hb) as [HbLf HbR].
    eapply (second_run_quiet M SAA rank F SC1 gs Rg Hd M1 SC2 b); eauto.
    + intros g (g0 & Hg0 & Hreach) Hh. apply HSC1. exists g0. by split.
    + intros g Hg. by apply Hf2.
  - (* the scope is the function *)
    rewrite Hcoh.
    destruct (fillTransitiveSplitterCallers_Function fuel M SAA F ∅)
      as [[Found1 SC1]|] eqn:Hfill1; simpl in Hrun; [|done].
    pose proof Hfill1 as Hspec1.
    apply fillTransitiveSplitterCallers_Function_spec in Hspec1
      as (HFound1 & HSC1 & _); [|apply filled_empty].
    destruct Found1; simpl in Hrun; cycle 1.
    { injection Hrun as <- <-.
      destruct (fillTransitiveSplitterCallers_Function_total M SAA rank fuel' Hd F ∅)
        as [[Found2 SC2] E2]; [lia|].
      rewrite E2. simpl.
      apply fillTransitiveSplitterCallers_Function_spec in E2 as (HFound2 & _);
        [|apply filled_empty].
      destruct Found2; [|done]. exfalso.
      destruct HFound2 as [H2 _], HFound1 as [_ H1].
      specialize (H1 (H2 eq_refl)). done. }
    set (gs := callees (concat (getBody M F))).
    assert (Hk0 : kept M SAA rank F gs (λ _, True) M).
    { apply kept_start; [done..|]. intros b g _ Hg. by apply (getBlock_calls M F b). }
    destruct (inlineCallsInFunction_inv F SC1 SAA (kept M SAA rank F gs (λ _, True)))
      with (fuel := fuel) (M := M) (c := c) (M' := M') as (Hk & Hq & _); [|done..|].
    { intros M1 b M2. by apply step_kept. }
    destruct fuel' as [|[|fuel'']]; [lia..|].
    destruct (isSplitterFunc SAA F) eqn:HsF.
    + (* a kernel that is a splitter: the finder stops at it, both times *)
      destruct fuel as [|fuel]; [done|]. simpl in Hfill1. rewrite HsF in Hfill1.
      injection Hfill1 as <-.
      cbn [fillTransitiveSplitterCallers_Function]. rewrite HsF. simpl.
      by apply inlineCallsInFunction_quiet.
    + pose proof (kept_descending M SAA rank F gs (λ _, True) Hd M' Hk) as Hd'.
      destruct (fillTransitiveSplitterCallers_Function_total M' SAA (rankAbove rank)
                  (S (S fuel'')) Hd' F ∅) as [[Found2 SC2] E2].
      { unfold rankAbove. case_bool_decide; lia. }
      rewrite E2. simpl.
      apply fillTransitiveSplitterCallers_Function_spec in E2 as (_ & _ & Hf2);
        [|apply filled_empty].
      destruct Found2; [|done]. simpl.
      apply inlineCallsInFunction_quiet. intros b.
      eapply (second_run_quiet M SAA rank F SC1 gs (λ _, True) Hd M' SC2 b); eauto.
      * intros g (g0 & Hg0 & Hreach) Hh. apply HSC1. right.
        apply visit_unfold; [done|]. right. exists g0. by split.
      * intros g Hg. by apply Hf2.
Qed.

(** C8: on a call graph that is not recursive, in a module in which the
    barrier intrinsic is a declaration, and with a loop analysis that is
    coherent between the two runs, a second run of the pass on the output
    of a first run changes nothing and reports "no change", through either
    entry point. *)
Theorem pass_idempotent (fuel : nat) (M : Module) (SAA : SplitterAnnotationInfo)
    (F : string) (rank : string → nat) (c : bool) (M' : Module) :
  ranked M rank = true →
  getBody M BarrierIntrinsicName = [] →
  coherent M F M' →
  runOnFunction fuel M SAA F = Some (c, M') →
  ∀ fuel', rank F + 3 ≤ fuel' →
    runOnFunction fuel' M' SAA F = Some (false, M') ∧
    run fuel' M' (Some SAA) F = Some (PreservedAll, M').
Proof.
  intros Hr%ranked_descending Hnil Hcoh Hrun fuel' Hfuel'.
  unfold runOnFunction, run in *.
  destruct (isKernelFunc SAA F); simpl in *; [|done].
  by rewrite (inlineSplitter_Function_idempotent fuel M SAA F rank c M').
Qed.

(** * Further properties of the finder *)

Lemma fillCalls_ext rec1 rec2 gs S :
  (∀ g S, g ∈ gs → rec1 g S = rec2 g S) → fillCalls rec1 gs S = fillCalls rec2 gs S.
Proof. forget_oracles.
  revert S. induction gs as [|g gs IH]; intros S Hrec; simpl; [done|].
  rewrite Hrec by apply list_elem_of_here.
  destruct (rec2 g S) as [[r S1]|]; simpl; [|done].
  rewrite IH; [done|]. intros g' S' Hg'. apply Hrec. by apply list_elem_of_further.
Qed.

Lemma fillTransitiveSplitterCallers_Function_splitter_body M SAA g body fuel :
  isSplitterFunc SAA g = true →
  ∀ F S, fillTransitiveSplitterCallers_Function fuel (<[g := body]> M) SAA F S
         = fillTransitiveSplitterCallers_Function fuel M SAA F S.
Proof. forget_oracles.
  intros Hg. induction fuel as [|fuel IH]; intros F S; simpl; [done|].
  destruct (isSplitterFunc SAA F) eqn:HF; [done|].
  case_bool_decide; [done|].
  assert (g ≠ F) by congruence.
  rewrite getBody_insert_ne by done.
  by rewrite (fillCalls_ext _ (fillTransitiveSplitterCallers_Function fuel M SAA))
    by (intros; apply IH).
Qed.

(** X1: the finder never reads the body of a function that is annotated as
    a splitter (it returns at lines 151-153 before the blocks are
    collected): giving such a function another body changes neither the
    flag nor the set, for a function or a list of blocks as the scope, for
    any set to start from and any recursion budget. *)
Theorem finder_ignores_splitter_bodies (M : Module) (SAA : SplitterAnnotationInfo)
    (g : string) (body : Body) :
  isSplitterFunc SAA g = true →
  (∀ fuel F S,
     fillTransitiveSplitterCallers_Function fuel (<[g := body]> M) SAA F S
     = fillTransitiveSplitterCallers_Function fuel M SAA F S) ∧
  (∀ fuel Blocks S,
     fillTransitiveSplitterCallers_Blocks fuel (<[g := body]> M) SAA Blocks S
     = fillTransitiveSplitterCallers_Blocks fuel M SAA Blocks S).
Proof.
  intros Hg. split.
  - intros fuel. by apply fillTransitiveSplitterCallers_Function_splitter_body.
  - intros fuel Blocks S. unfold fillTransitiveSplitterCallers_Blocks.
    apply fillCalls_ext. intros g' S' _.
    by apply fillTransitiveSplitterCallers_Function_splitter_body.
Qed.

Lemma fillTransitiveSplitterCallers_Blocks_spec_from M SAA fuel Blocks S Found S' :
  filled M SAA S →
  fillTransitiveSplitterCallers_Blocks fuel M SAA Blocks S = Some (Found, S') →
  (Found = true ↔ ∃ g, g ∈ callees (concat Blocks) ∧ hits M SAA g) ∧
  (∀ h, h ∈ S' ↔ h ∈ S ∨ ∃ g, g ∈ callees (concat Blocks) ∧ visit M SAA g h) ∧
  filled M SAA S'.
Proof. forget_oracles.
  unfold fillTransitiveSplitterCallers_Blocks. intros HS E.
  eapply fillCalls_spec in E; [done| |done].
  intros. by eapply fillTransitiveSplitterCallers_Function_spec.
Qed.

Lemma bool_eq_by_iff (b1 b2 : bool) (P : Prop) :
  (b1 = true ↔ P) → (b2 = true ↔ P) → b1 = b2.
Proof. destruct b1, b2; intuition congruence. Qed.

(** X2: the flag and the set that the finder computes for a list of blocks
    depend on which functions the blocks call directly, not on the order or
    the number of the calls, nor on the recursion budget, whenever the
    finder returns. *)
Theorem finder_order_independent (M : Module) (SAA : SplitterAnnotationInfo)
    (fuel1 fuel2 : nat) (Blocks1 Blocks2 : Body)
    (Found1 Found2 : bool) (S1 S2 : gset string) :
  (∀ g, g ∈ callees (concat Blocks1) ↔ g ∈ callees (concat Blocks2)) →
  fillTransitiveSplitterCallers_Blocks fuel1 M SAA Blocks1 ∅ = Some (Found1, S1) →
  fillTransitiveSplitterCallers_Blocks fuel2 M SAA Blocks2 ∅ = Some (Found2, S2) →
  Found1 = Found2 ∧ S1 = S2.
Proof. forget_oracles.
  intros Hsame (HF1 & HS1 & _)%fillTransitiveSplitterCallers_Blocks_spec
               (HF2 & HS2 & _)%fillTransitiveSplitterCallers_Blocks_spec.
  split.
  - apply (bool_eq_by_iff _ _ _ HF1). rewrite HF2.
    split; intros (g & Hg & Hh); exists g; (split; [by apply Hsame|done]).
  - apply leibniz_equiv. intros h. rewrite HS1, HS2.
    split; intros (g & Hg & Hh); exists g; (split; [by apply Hsame|done]).
Qed.

(** X3: for a function that is not itself a splitter, the set that the
    finder computes for the blocks of a loop of the function is contained
    in the set that it computes for the function, and a splitter found
    from the loop is found from the function. *)
Theorem finder_loop_within_function (M : Module) (SAA : SplitterAnnotationInfo)
    (F : string) (L : Loop) (fuel1 fuel2 : nat)
    (Found1 Found2 : bool) (S1 S2 : gset string) :
  isSplitterFunc SAA F = false →
  fillTransitiveSplitterCallers_Loop fuel1 M SAA F L ∅ = Some (Found1, S1) →
  fillTransitiveSplitterCallers_Function fuel2 M SAA F ∅ = Some (Found2, S2) →
  S1 ⊆ S2 ∧ (Found1 = true → Found2 = true).
Proof. forget_oracles.
  intros HF (HF1 & HS1 & _)%fillTransitiveSplitterCallers_Blocks_spec E2.
  apply fillTransitiveSplitterCallers_Function_spec in E2 as (HF2 & HS2 & _);
    [|apply filled_empty].
  split.
  - intros h (g & (b & _ & Hg)%loop_blocks_calls & Hv)%HS1.
    apply HS2. right. apply visit_unfold; [done|]. right.
    exists g. split; [by eapply getBlock_calls|done].
  - intros (g & (b & _ & Hg)%loop_blocks_calls & Hh)%HF1.
    apply HF2. eapply hits_caller; [by eapply getBlock_calls|done].
Qed.

(** X4: the set that the finder has computed is closed under the finder:
    run again on the same scope with that set to start from (the members
    are then answered at lines 154-155), it returns the same flag and the
    same set. *)
Theorem finder_stable_on_its_result (M : Module) (SAA : SplitterAnnotationInfo) :
  (∀ fuel1 fuel2 F Found S Found' S',
     fillTransitiveSplitterCallers_Function fuel1 M SAA F ∅ = Some (Found, S) →
     fillTransitiveSplitterCallers_Function fuel2 M SAA F S = Some (Found', S') →
     Found' = Found ∧ S' = S) ∧
  (∀ fuel1 fuel2 Blocks Found S Found' S',
     fillTransitiveSplitterCallers_Blocks fuel1 M SAA Blocks ∅ = Some (Found, S) →
     fillTransitiveSplitterCallers_Blocks fuel2 M SAA Blocks S = Some (Found', S') →
     Found' = Found ∧ S' = S).
Proof. forget_oracles.
  split.
  - intros fuel1 fuel2 F Found S Found' S' E1 E2.
    apply fillTransitiveSplitterCallers_Function_spec in E1 as (HF1 & HS1 & Hf1);
      [|apply filled_empty].
    apply fillTransitiveSplitterCallers_Function_spec in E2 as (HF2 & HS2 & _);
      [|done].
    split; [by apply (bool_eq_by_iff _ _ _ HF2)|].
    apply leibniz_equiv. intros h. rewrite HS2, HS1.
    split; [|by left]. intros [H|H]; [done|by right].
  - intros fuel1 fuel2 Blocks Found S Found' S' E1 E2.
    apply fillTransitiveSplitterCallers_Blocks_spec in E1 as (HF1 & HS1 & Hf1).
    apply fillTransitiveSplitterCallers_Blocks_spec_from in E2 as (HF2 & HS2 & _);
      [|done].
    split; [by apply (bool_eq_by_iff _ _ _ HF2)|].
    apply leibniz_equiv. intros h. rewrite HS2, HS1.
    split; [|by left]. intros [H|H]; done.
Qed.

(** * Further properties of the driver and of the inliner *)

(** ** What every run keeps, and what a run that reports a change gains *)

Section Progress.
Context (F : string) (SAA : SplitterAnnotationInfo).
Context (P Q : Module → Prop).
Hypothesis Hweak : ∀ M, Q M → P M.
Hypothesis Hstep : ∀ SC M b M', P M → step M F b SC SAA M' → Q M'.

Lemma inlineCallsInBasicBlock_progress SC b fuel :
  ∀ M c M', P M →
  inlineCallsInBasicBlock fuel M F b SC SAA = Some (c, M') →
  if c then Q M' else M' = M.
Proof using Hweak Hstep.
  induction fuel as [|fuel IH]; intros M c M' HP; simpl; [done|].
  destruct (scanBlock M F b SC SAA [] (getBlock M F b)) as [M1|] eqn:E.
  - destruct (inlineCallsInBasicBlock fuel M1 F b SC SAA) as [[c1 M2]|] eqn:E1;
      simpl; [|done].
    intros [= <- <-]. pose proof (Hstep SC M b M1 HP E) as HQ1.
    apply IH in E1; [|by apply Hweak]. destruct c1; [done|by subst].
  - by intros [= <- <-].
Qed.

Lemma firstChangedBlock_progress SC fuel bs :
  ∀ M c M', P M →
  firstChangedBlock (λ M b, inlineCallsInBasicBlock fuel M F b SC SAA) M bs
  = Some (c, M') →
  if c then Q M' else M' = M.
Proof using Hweak Hstep.
  induction bs as [|b bs IH]; intros M c M' HP; cbn [firstChangedBlock].
  - by intros [= <- <-].
  - destruct (inlineCallsInBasicBlock fuel M F b SC SAA) as [[c1 M1]|] eqn:E1;
      simpl; [|done].
    apply inlineCallsInBasicBlock_progress in E1; [|done].
    destruct c1; [by intros [= <- <-]|]. subst M1. by apply IH.
Qed.

Lemma inlineCallsInFunction_progress SC fuel :
  ∀ M c M', P M →
  inlineCallsInFunction fuel M F SC SAA = Some (c, M') →
  if c then Q M' else M' = M.
Proof using Hweak Hstep.
  induction fuel as [|fuel IH]; intros M c M' HP; [done|].
  cbn [inlineCallsInFunction].
  destruct (firstChangedBlock _ M _) as [[c1 M1]|] eqn:E1; simpl; [|done].
  apply firstChangedBlock_progress in E1; [|done].
  destruct c1; [|by intros [= <- <-]].
  destruct (inlineCallsInFunction fuel M1 F SC SAA) as [[c2 M2]|] eqn:E2;
    simpl; [|done].
  intros [= <- <-]. apply IH in E2; [|by apply Hweak].
  destruct c2; [done|by subst].
Qed.

Lemma inlineCallsInLoop_from_progress SC B fuel :
  ∀ M L c M' L', P M →
  inlineCallsInLoop_from fuel M F B L SC SAA = Some (c, M', L') →
  if c then Q M' else M' = M.
Proof using Hweak Hstep.
  induction fuel as [|fuel IH]; intros M L c M' L' HP; [done|].
  cbn [inlineCallsInLoop_from].
  destruct (firstChangedBlock _ M _) as [[c1 M1]|] eqn:E1; simpl; [|done].
  apply firstChangedBlock_progress in E1; [|done].
  destruct c1; [|by intros [= <- <- <-]].
  destruct (inlineCallsInLoop_from fuel M1 F B _ SC SAA) as [[[c2 M2] L2]|] eqn:E2;
    simpl; [|done].
  intros [= <- <- <-]. apply IH in E2; [|by apply Hweak].
  destruct c2; [done|by subst].
Qed.

Lemma inlineSplitter_Function_progress fuel M c M' :
  P M →
  inlineSplitter_Function fuel M F SAA = Some (c, M') →
  if c then Q M' else M' = M.
Proof using Hweak Hstep.
  intros HP. unfold inlineSplitter_Function, inlineSplitter_Loop, inlineCallsInLoop.
  destruct (getSingleWorkItemLoop (getBody M F)) as [L|].
  - destruct (isWorkItemLoop L); simpl; [|by intros [= <- <-]].
    destruct (fillTransitiveSplitterCallers_Loop _ _ _ _ _ _) as [[[] SC]|];
      simpl; [| |done]; [|by intros [= <- <-]].
    destruct (inlineCallsInLoop_from _ _ _ _ _ _ _) as [[[c1 M1] L1]|] eqn:E;
      simpl; [|done].
    intros [= <- <-]. by eapply inlineCallsInLoop_from_progress.
  - destruct (fillTransitiveSplitterCallers_Function _ _ _ _ _) as [[[] SC]|];
      simpl; [| |done]; [|by intros [= <- <-]].
    by apply inlineCallsInFunction_progress.
Qed.

Lemma runOnFunction_progress fuel M c M' :
  P M →
  runOnFunction fuel M SAA F = Some (c, M') →
  if c then Q M' else M' = M.
Proof using Hweak Hstep.
  intros HP. unfold runOnFunction.
  destruct (isKernelFunc SAA F); simpl; [|by intros [= <- <-]].
  by apply inlineSplitter_Function_progress.
Qed.
End Progress.

(** X5: the two entry points agree: on every input the pass of the new
    pass manager, given the annotation analysis, returns what the legacy
    pass returns, with "all analyses preserved" for [false] and "only the
    annotation analysis preserved" for [true]. *)
Theorem entry_points_agree (fuel : nat) (M : Module) (SAA : SplitterAnnotationInfo)
    (F : string) :
  run fuel M (Some SAA) F =
  (λ r : bool * Module,
     (if r.1 then PreservedSplitterAnnotationAnalysis else PreservedAll, r.2))
    <$> runOnFunction fuel M SAA F.
Proof.
  unfold run, runOnFunction.
  destruct (isKernelFunc SAA F); simpl; [|done].
  by destruct (inlineSplitter_Function fuel M F SAA) as [[[] M']|].
Qed.

(** X6: a run that reports "no change" has changed nothing: when the legacy
    pass returns [false], or the new pass reports all analyses preserved,
    the module is the one that went in.  This holds for every module,
    recursive or not, and every answer of the loop analysis. *)
Theorem no_change_reported_is_no_change (fuel : nat) (M : Module)
    (F : string) (M' : Module) :
  (∀ SAA, runOnFunction fuel M SAA F = Some (false, M') → M' = M) ∧
  (∀ SAA, run fuel M SAA F = Some (PreservedAll, M') → M' = M).
Proof.
  assert (Hinl : ∀ SAA, inlineSplitter_Function fuel M F SAA = Some (false, M') →
                        M' = M).
  { intros SAA Hrun.
    by apply (inlineSplitter_Function_progress F SAA (λ _, True) (λ _, True))
      in Hrun. }
  split.
  - intros SAA. unfold runOnFunction.
    destruct (isKernelFunc SAA F); simpl; [by apply Hinl|by intros [= <-]].
  - intros [SAA|]; [|by intros [= <-]]. unfold run.
    destruct (isKernelFunc SAA F); simpl; [|by intros [= <-]].
    destruct (inlineSplitter_Function fuel M F SAA) as [[[] M1]|] eqn:E;
      simpl; [done| |done].
    intros [= <-]. by apply (Hinl SAA).
Qed.

(** The instructions of [F] before and after a scan that acts: the call
    acted on goes, the instructions [news] come (the body of the callee, or
    a call to the barrier intrinsic), the rest stays. *)
Lemma step_instructions M F b SC SAA M' :
  step M F b SC SAA M' →
  ∃ g news X,
    concat (getBody M F) ≡ₚ Call (Some g) :: X ∧
    concat (getBody M' F) ≡ₚ news ++ X.
Proof.
  unfold step. intros Hs.
  apply scanBlock_Some in Hs as (q & g & post & Hblk & _ & Hact).
  assert (Hb : getBody M F !! b = Some (q ++ Call (Some g) :: post)).
  { unfold getBlock in Hblk. destruct (getBody M F !! b); simpl in Hblk; [by subst|].
    by destruct q. }
  simpl in Hact.
  destruct Hact as [(_ & _ & Hinl)|(_ & _ & ->)].
  - unfold checkedInlineFunction in Hinl. case_bool_decide; [done|].
    destruct (getBody M g) as [|c [|c' cs]]; [done| |]; injection Hinl as <-;
      rewrite getBody_insert_eq.
    + destruct (concat_insert_perm (getBody M F) b _ (q ++ c ++ post) Hb)
        as (rest & Hold & Hnew).
      exists g, c, (q ++ post ++ rest). rewrite Hold, Hnew. split; solve_Permutation.
    + destruct (concat_insert_perm (getBody M F) b _ (q ++ c) Hb)
        as (rest & Hold & Hnew).
      exists g, (c ++ concat (c' :: cs)), (q ++ post ++ rest).
      change (c' :: cs ++ [post]) with ((c' :: cs) ++ [post]).
      rewrite !concat_app, Hold, Hnew. simpl. rewrite app_nil_r.
      split; solve_Permutation.
  - unfold lowerCall. rewrite getBody_insert_eq.
    destruct (concat_insert_perm (getBody M F) b _
                (q ++ Call (Some BarrierIntrinsicName) :: post) Hb)
      as (rest & Hold & Hnew).
    exists g, [Call (Some BarrierIntrinsicName)], (q ++ post ++ rest).
    rewrite Hold, Hnew. split; solve_Permutation.
Qed.

Lemma tracks_descending M rank F M1 :
  descending M rank → tracks M rank F M1 →
  getBody M1 BarrierIntrinsicName = [] →
  descending M1 (rankAbove rank).
Proof. forget_oracles.
  intros Hd [Hoff Hrk] Hnil f g Hc. unfold rankAbove.
  destruct (decide (f = BarrierIntrinsicName)) as [->|Hf].
  { unfold calls in Hc. rewrite Hnil in Hc. by apply not_elem_of_nil in Hc. }
  rewrite (bool_decide_eq_false_2 (f = BarrierIntrinsicName)) by done.
  case_bool_decide; [lia|].
  destruct (decide (f = F)) as [->|HfF].
  - destruct (Hrk g Hc); [done|lia].
  - unfold calls, getBody in Hc. rewrite Hoff in Hc by done.
    pose proof (Hd f g Hc). lia.
Qed.

(** X7: on a call graph that is not recursive, a run that reports a change
    has changed the module: when the legacy pass returns [true], or the new
    pass reports that only the annotation analysis is preserved, the module
    that comes out is not the one that went in. *)
Theorem change_reported_is_change (fuel : nat) (M : Module)
    (SAA : SplitterAnnotationInfo) (F : string) (rank : string → nat) (M' : Module) :
  ranked M rank = true →
  (runOnFunction fuel M SAA F = Some (true, M') → M' ≠ M) ∧
  (run fuel M (Some SAA) F = Some (PreservedSplitterAnnotationAnalysis, M') →
   M' ≠ M).
Proof.
  intros Hd%ranked_descending.
  assert (Hinl : inlineSplitter_Function fuel M F SAA = Some (true, M') → M' ≠ M).
  { intros Hrun.
    apply (inlineSplitter_Function_progress F SAA
             (λ M1, tracks M rank F M1 ∧
                    pending M SAA rank M1 F ≤ pending M SAA rank M F)
             (λ M1, tracks M rank F M1 ∧
                    pending M SAA rank M1 F < pending M SAA rank M F)) in Hrun.
    - destruct Hrun as [_ Hlt]. intros ->. lia.
    - intros M1 [Ht Hlt]. split; [done|lia].
    - intros SC M1 b M2 [Ht Hle] Hs.
      destruct (step_tracks M rank F M1 b SC SAA M2 Hd Ht Hs) as [Ht2 Hlt].
      split; [done|lia].
    - split; [by apply tracks_start|done]. }
  split.
  - unfold runOnFunction. destruct (isKernelFunc SAA F); simpl; [done|by intros [=]].
  - unfold run. destruct (isKernelFunc SAA F); simpl; [|by intros [=]].
    destruct (inlineSplitter_Function fuel M F SAA) as [[[] M1]|] eqn:E;
      simpl; [|done..].
    intros [= <-]. by apply Hinl.
Qed.

(** X8: the pass changes the function that it is run on and nothing else:
    every other function of the module comes out as it went in, whatever
    the scope and whatever is inlined; and the function never loses a
    block. *)
Theorem pass_touches_only_the_function (fuel : nat) (M : Module)
    (SAA : SplitterAnnotationInfo) (F : string) (c : bool) (M' : Module) :
  runOnFunction fuel M SAA F = Some (c, M') →
  (∀ G, G ≠ F → M' !! G = M !! G) ∧
  length (getBody M F) ≤ length (getBody M' F).
Proof.
  intros Hrun.
  set (P := λ M1 : Module,
          (∀ G, G ≠ F → M1 !! G = M !! G) ∧
          length (getBody M F) ≤ length (getBody M1 F)).
  apply (runOnFunction_progress F SAA P P) in Hrun.
  - destruct c; [done|]. by subst.
  - done.
  - intros SC M1 b M2 [Hoff Hlen]
      (g & news & X & _ & _ & Hoff' & Hlen' & _)%step_callees.
    split; [|lia]. intros G HG. by rewrite Hoff', Hoff.
  - by split.
Qed.

(** X9: the loop that [inlineCallsInLoop] hands back through its reference
    is never stale: when nothing was changed it is the loop that was passed
    in, and the module is unchanged; when something was changed it is the
    loop of the first block of the original loop as recomputed for the
    function in its final state (line 97 runs after the last change). *)
Theorem loop_handle_in_sync (fuel : nat) (M : Module) (F : string) (L : Loop)
    (SC : gset string) (SAA : SplitterAnnotationInfo)
    (c : bool) (M' : Module) (L' : Loop) :
  inlineCallsInLoop fuel M F L SC SAA = Some (c, M', L') →
  if c then L' = updateDtAndLi (getBody M' F) (hd 0 (getBlocks L))
  else M' = M ∧ L' = L.
Proof.
  unfold inlineCallsInLoop. intros Hrun.
  apply (inlineCallsInLoop_from_inv F SC SAA (λ _, True) (λ _, True))
    in Hrun as (_ & _ & Hf & Ht); [|done..].
  destruct c; [by apply Ht|by apply Hf].
Qed.

(** X10: the pass brings no new callee into the function: every direct
    call of the function after the pass is a call to the barrier intrinsic
    or to a function that was reachable from it through direct calls
    before the pass.  This holds on every call graph, recursive or not. *)
Theorem pass_calls_nothing_new (fuel : nat) (M : Module)
    (SAA : SplitterAnnotationInfo) (F : string) (c : bool) (M' : Module) :
  runOnFunction fuel M SAA F = Some (c, M') →
  ∀ g, calls M' F g → g = BarrierIntrinsicName ∨ reaches M F g.
Proof.
  intros Hrun.
  set (P := λ M1 : Module,
          (∀ G, G ≠ F → M1 !! G = M !! G) ∧
          (∀ g, calls M1 F g → g = BarrierIntrinsicName ∨ reaches M F g)).
  assert (HP0 : P M).
  { split; [done|]. intros g Hg. right. by apply reaches_call. }
  apply (runOnFunction_progress F SAA P P) in Hrun; [| |clear Hrun|done].
  - destruct c; [by destruct Hrun|]. subst. by destruct HP0.
  - done.
  - intros SC M1 b M2 [Hoff Hcalls]
      (g & news & X & Hold & Hnew & Hoff' & _ & Hkind)%step_callees.
    split; [intros G HG; by rewrite Hoff', Hoff|].
    assert (Hg : calls M1 F g) by (unfold calls; rewrite Hold; set_solver).
    intros h Hh. unfold calls in Hh. rewrite Hnew in Hh.
    apply elem_of_app in Hh as [Hh|Hh];
      [|apply Hcalls; unfold calls; rewrite Hold; set_solver].
    destruct Hkind as [(_ & _ & Hne & _ & ->)|(_ & _ & ->)]; [|left; set_solver].
    destruct (decide (g = F)) as [->|HgF]; [by apply Hcalls|].
    right. destruct (Hcalls g Hg) as [|Hr]; [done|].
    unfold getBody in Hh. rewrite Hoff in Hh by done.
    eapply reaches_trans; [done|]. by apply reaches_call.
Qed.

(** X11: the pass keeps its own precondition: run on a call graph that is
    not recursive, in a module in which the barrier intrinsic is a
    declaration, it leaves a call graph that is not recursive (with the
    barrier intrinsic at rank 0 and every other function one rank up). *)
Theorem pass_keeps_call_graph_ranked (fuel : nat) (M : Module)
    (SAA : SplitterAnnotationInfo) (F : string) (rank : string → nat)
    (c : bool) (M' : Module) :
  ranked M rank = true →
  getBody M BarrierIntrinsicName = [] →
  runOnFunction fuel M SAA F = Some (c, M') →
  ranked M' (rankAbove rank) = true.
Proof.
  intros Hd%ranked_descending Hnil Hrun. apply ranked_descending.
  set (P := λ M1 : Module,
          tracks M rank F M1 ∧ getBody M1 BarrierIntrinsicName = []).
  assert (HP0 : P M) by (split; [by apply tracks_start|done]).
  assert (HP' : P M').
  { apply (runOnFunction_progress F SAA P P) in Hrun; [| |clear Hrun|done].
    - destruct c; [done|by subst].
    - done.
    - intros SC M1 b M2 [Ht Hn] Hs.
      split; [by destruct (step_tracks M rank F M1 b SC SAA M2 Hd Ht Hs)|].
      by eapply step_keeps_intrinsic. }
  destruct HP' as [Ht Hn]. by eapply tracks_descending.
Qed.

(** X12: the pass removes nothing but direct calls: every instruction of
    the function that is not a direct call (an indirect call, or an
    instruction that is not a call) is in the function after the pass, as
    many times as before. *)
Theorem pass_keeps_other_instructions (fuel : nat) (M : Module)
    (SAA : SplitterAnnotationInfo) (F : string) (c : bool) (M' : Module) :
  runOnFunction fuel M SAA F = Some (c, M') →
  otherInstructions (concat (getBody M F))
  ⊆+ otherInstructions (concat (getBody M' F)).
Proof.
  intros Hrun.
  set (P := λ M1 : Module,
          otherInstructions (concat (getBody M F))
          ⊆+ otherInstructions (concat (getBody M1 F))).
  apply (runOnFunction_progress F SAA P P) in Hrun.
  - destruct c; [done|]. by subst.
  - done.
  - intros SC M1 b M2 HP (g & news & X & Hold & Hnew)%step_instructions.
    unfold P, otherInstructions in *. rewrite Hnew, filter_app.
    apply submseteq_inserts_l. rewrite HP, Hold.
    by rewrite filter_cons_False by (simpl; congruence).
  - by unfold P.
Qed.

(** * What the pass leaves behind *)

Lemma step_visited M SAA rank F gs Rg SC M1 b M2 :
  Rg b → tracks M rank F M1 → visited M SAA gs F Rg M1 →
  step M1 F b SC SAA M2 → visited M SAA gs F Rg M2.
Proof. forget_oracles.
  intros Hb Ht Hv Hs.
  destruct (step_block_calls _ _ _ _ _ _ Hs) as (g & news & Hg & Hkind & Hcalls).
  assert (Hnews : ∀ h, h ∈ news →
            h = BarrierIntrinsicName ∨ scopeReachesOpen M SAA gs h).
  { intros h Hh. destruct Hkind as [(Hin & Hns & Hne & ->)| ->].
    - right. destruct (Hv b g Hb Hg) as [|Hg']; [done|].
      destruct Ht as [Hoff Hrk].
      destruct (Hrk g (getBlock_calls _ _ _ _ Hg)) as [|Hlt]; [done|].
      assert (g ≠ F) by (intros ->; lia).
      unfold getBody in Hh. rewrite Hoff in Hh by done.
      by eapply scopeReachesOpen_step.
    - left. set_solver. }
  intros b' h Hb' Hh.
  destruct (Hcalls b' h Hh) as [[_ Hold]|[_ [Hold|Hn]]];
    [by apply (Hv b')|by apply (Hv b)|by apply Hnews].
Qed.

Lemma quiet_exposed M SAA rank F gs Rg SC M' b g :
  descending M rank → tracks M rank F M' → visited M SAA gs F Rg M' →
  (∀ g, scopeReachesOpen M SAA gs g → hits M SAA g → g ∈ SC) →
  (∀ h, h ∈ SC → isSplitterFunc SAA h = false → getBody M' h ≠ []) →
  Rg b → quiet M' F SC SAA b → g ∈ callees (getBlock M' F b) →
  g = BarrierIntrinsicName ∨ ¬ hits M' SAA g.
Proof. forget_oracles.
  intros Hd [Hoff Hrk] Hv Hcover Hbodies Hb Hq Hg.
  destruct (decide (g = BarrierIntrinsicName)) as [|Hne]; [by left|right].
  intros Hh.
  destruct (Hv b g Hb Hg) as [|Hreach]; [done|].
  destruct (Hrk g (getBlock_calls _ _ _ _ Hg)) as [|Hlt]; [done|].
  assert (g ∈ SC) by (apply Hcover; [done|]; eapply hits_off; eauto).
  by apply Hne, (quiet_no_splitter_caller M' F SC SAA b g).
Qed.

(** What the inliner keeps true of the module [M1] that it works on, the
    set being the one that the finder computed in [M] for the calls [gs]. *)
Lemma step_exposing M SAA rank F gs Rg SC M1 b M2 :
  descending M rank → Rg b →
  tracks M rank F M1 ∧ visited M SAA gs F Rg M1 ∧
    (∀ g, getBody M g ≠ [] → getBody M1 g ≠ []) →
  step M1 F b SC SAA M2 →
  tracks M rank F M2 ∧ visited M SAA gs F Rg M2 ∧
    (∀ g, getBody M g ≠ [] → getBody M2 g ≠ []).
Proof. forget_oracles.
  intros Hd Hb (Ht & Hv & Hbd) Hs. split_and!.
  - by destruct (step_tracks M rank F M1 b SC SAA M2 Hd Ht Hs).
  - by eapply step_visited.
  - intros g Hg. eapply step_keeps_bodies; eauto.
Qed.

(** X13: after the pass on the whole function, no barrier is hidden behind
    a call.  On a call graph that is not recursive, for a kernel that is
    not itself a splitter and in which no work-item loop is identified,
    every direct call that the kernel has after the pass is a call to the
    barrier intrinsic or to a function from which, in the module after the
    pass, no splitter is reached. *)
Theorem kernel_barriers_exposed (fuel : nat) (M : Module)
    (SAA : SplitterAnnotationInfo) (F : string) (rank : string → nat)
    (c : bool) (M' : Module) :
  ranked M rank = true →
  isKernelFunc SAA F = true →
  isSplitterFunc SAA F = false →
  getSingleWorkItemLoop (getBody M F) = None →
  runOnFunction fuel M SAA F = Some (c, M') →
  ∀ g, calls M' F g → g = BarrierIntrinsicName ∨ ¬ hits M' SAA g.
Proof.
  intros Hd%ranked_descending HK HnsF Hloop Hrun g Hg.
  unfold runOnFunction in Hrun. rewrite HK in Hrun. simpl in Hrun.
  unfold inlineSplitter_Function in Hrun. rewrite Hloop in Hrun.
  destruct (fillTransitiveSplitterCallers_Function fuel M SAA F ∅)
    as [[Found SC]|] eqn:Hfill; simpl in Hrun; [|done].
  apply fillTransitiveSplitterCallers_Function_spec in Hfill
    as (HFound & HSC & Hf); [|apply filled_empty].
  destruct Found; simpl in Hrun; cycle 1.
  { injection Hrun as <- <-.
    destruct (decide (g = BarrierIntrinsicName)); [by left|right].
    intros Hh. destruct HFound as [_ HFound].
    by specialize (HFound (hits_caller M SAA F g Hg Hh)). }
  set (gs := callees (concat (getBody M F))).
  set (P := λ M1 : Module,
          tracks M rank F M1 ∧ visited M SAA gs F (λ _, True) M1 ∧
          (∀ g, getBody M g ≠ [] → getBody M1 g ≠ [])).
  assert (HP0 : P M).
  { split_and!; [by apply tracks_start| |done].
    intros b h _ Hh. right. exists h.
    split; [by apply (getBlock_calls M F b)|by left]. }
  apply (inlineCallsInFunction_inv F SC SAA P) in Hrun as ((Ht & Hv & Hbd) & Hq & _);
    [|by intros M1 b M2; apply (step_exposing M SAA rank F gs (λ _, True))|done].
  apply calls_getBlock in Hg as [b Hg].
  apply (quiet_exposed M SAA rank F gs (λ _, True) SC M' b g); try done.
  - intros h (g0 & Hg0 & Hreach) Hh. apply HSC. right.
    apply visit_unfold; [done|]. right. exists g0. by split.
  - intros h Hh Hns. by apply Hbd, (filled_has_body M SAA SC).
Qed.


(** * A kernel without wrappers of barriers *)

Lemma fmap_fixed {A} (f : A → A) (l : list A) :
  (∀ x, x ∈ l → f x = x) → f <$> l = l.
Proof. forget_oracles.
  induction l as [|x l IH]; intros Hf; [done|].
  rewrite fmap_cons, Hf by apply list_elem_of_here.
  rewrite IH; [done|]. intros y Hy. by apply Hf, list_elem_of_further.
Qed.

Lemma lowerInstruction_quiet M F SC SAA :
  (∀ b, quiet M F SC SAA b) → lowerBody SAA (getBody M F) = getBody M F.
Proof. forget_oracles.
  intros Hq. unfold lowerBody. apply fmap_fixed. intros blk Hblk.
  apply list_elem_of_lookup_1 in Hblk as [b Hb].
  apply fmap_fixed. intros [[g|]|op] Hi; simpl; try done.
  destruct (isSplitterFunc SAA g) eqn:Hs; [|done].
  specialize (Hq b). unfold quiet, getBlock in Hq. rewrite Hb in Hq. simpl in Hq.
  rewrite Forall_forall in Hq. apply elem_of_callees in Hi.
  specialize (Hq g Hi). unfold actionable in Hq.
  rewrite Hs, andb_false_r in Hq. simpl in Hq.
  apply negb_false_iff, bool_decide_eq_true in Hq. by subst.
Qed.

Lemma lowerBody_lowerCall M F b SAA q g post :
  getBody M F !! b = Some (q ++ Call (Some g) :: post) →
  isSplitterFunc SAA g = true →
  lowerBody SAA (getBody (lowerCall M F b q post) F) = lowerBody SAA (getBody M F).
Proof. forget_oracles.
  intros Hb Hs. unfold lowerCall, lowerBody. rewrite getBody_insert_eq.
  rewrite list_fmap_insert. apply list_insert_id.
  rewrite list_lookup_fmap, Hb. simpl. f_equal.
  rewrite !fmap_app, !fmap_cons. simpl. rewrite Hs.
  by destruct (isSplitterFunc SAA BarrierIntrinsicName).
Qed.

(** X15: a kernel in which every call that leads to a barrier is a call to
    a splitter itself has nothing to inline, and the pass on the whole
    function is then a map over its instructions: the function after the
    pass is the function before it with every direct call to a splitter
    made a call to the barrier intrinsic, block by block and instruction
    by instruction. *)
Theorem pass_lowers_direct_barriers (fuel : nat) (M : Module)
    (SAA : SplitterAnnotationInfo) (F : string) (c : bool) (M' : Module) :
  isKernelFunc SAA F = true →
  getSingleWorkItemLoop (getBody M F) = None →
  (∀ g, calls M F g → hits M SAA g → isSplitterFunc SAA g = true) →
  runOnFunction fuel M SAA F = Some (c, M') →
  getBody M' F = lowerBody SAA (getBody M F).
Proof.
  intros HK Hloop Hdirect Hrun.
  unfold runOnFunction in Hrun. rewrite HK in Hrun. simpl in Hrun.
  unfold inlineSplitter_Function in Hrun. rewrite Hloop in Hrun.
  destruct (fillTransitiveSplitterCallers_Function fuel M SAA F ∅)
    as [[Found SC]|] eqn:Hfill; simpl in Hrun; [|done].
  apply fillTransitiveSplitterCallers_Function_spec in Hfill
    as (HFound & HSC & Hf); [|apply filled_empty].
  destruct Found; simpl in Hrun; cycle 1.
  { injection Hrun as <- <-. symmetry. unfold lowerBody.
    apply fmap_fixed. intros blk Hblk. apply fmap_fixed.
    intros [[g|]|op] Hi; simpl; try done.
    destruct (isSplitterFunc SAA g) eqn:Hs; [exfalso|done].
    destruct HFound as [_ HFound].
    assert (Hc : calls M F g).
    { unfold calls. apply elem_of_callees_concat. exists blk.
      split; [done|by apply elem_of_callees]. }
    assert (Hh : hits M SAA F) by (apply (hits_caller M SAA F g Hc); by left).
    by specialize (HFound Hh). }
  set (P := λ M1 : Module,
          lowerBody SAA (getBody M1 F) = lowerBody SAA (getBody M F) ∧
          (∀ g, calls M1 F g → g = BarrierIntrinsicName ∨ calls M F g)).
  assert (Hnoinl : ∀ g, calls M F g → g ∈ SC → isSplitterFunc SAA g = false → False).
  { intros g Hc Hin Hns.
    apply HSC in Hin as [Hin|Hv]; [by apply not_elem_of_empty in Hin|].
    destruct Hv as [_ Hh]. specialize (Hdirect g Hc Hh). congruence. }
  destruct (inlineCallsInFunction_inv F SC SAA P) with (fuel := fuel) (M := M)
    (c := c) (M' := M') as ((Hlow & _) & Hq & _); [| |done|]; cycle 2.
  - by rewrite <- Hlow, (lowerInstruction_quiet M' F SC SAA).
  - clear Hrun. intros M1 b M2 [Hlow Hcalls] Hs. split.
    + unfold step in Hs.
      apply scanBlock_Some in Hs as (q & g & post & Hblk & _ & Hact).
      assert (Hb : getBody M1 F !! b = Some (q ++ Call (Some g) :: post)).
      { unfold getBlock in Hblk.
        destruct (getBody M1 F !! b); simpl in Hblk; [by subst|]. by destruct q. }
      simpl in Hact. destruct Hact as [(Hin & Hns & Hinl)|(Hsp & _ & ->)].
      * exfalso. unfold checkedInlineFunction in Hinl.
        case_bool_decide as Hne; [done|].
        destruct (Hcalls g) as [|Hc]; [|done|by eapply Hnoinl].
        apply (getBlock_calls M1 F b). rewrite Hblk, callees_app. simpl. set_solver.
      * by rewrite (lowerBody_lowerCall M1 F b SAA q g post).
    + apply step_callees in Hs
        as (g & news & X & Hold & Hnew & _ & _ & Hkind).
      assert (Hg : calls M1 F g) by (unfold calls; rewrite Hold; set_solver).
      destruct Hkind as [(Hin & Hns & Hne & _)|(_ & _ & ->)].
      { exfalso. destruct (Hcalls g Hg) as [|Hc]; [done|by eapply Hnoinl]. }
      intros h Hh. unfold calls in Hh. rewrite Hnew in Hh.
      apply elem_of_app in Hh as [Hh|Hh]; [left; set_solver|].
      apply Hcalls. unfold calls. rewrite Hold. set_solver.
  - split; [done|]. intros g Hg. by right.
Qed.

(** * What the flag of the finder tells *)

Lemma fillCalls_grows rec gs :
  (∀ g S b S', g ∈ gs → rec g S = Some (b, S') →
     S ⊆ S' ∧ (b = true → g ∈ S') ∧ (b = false → S' = S)) →
  ∀ S b S', fillCalls rec gs S = Some (b, S') →
    S ⊆ S' ∧ (b = true → ∃ g, g ∈ gs ∧ g ∈ S') ∧ (b = false → S' = S).
Proof. forget_oracles.
  induction gs as [|g gs IH]; intros Hrec S b S'; simpl.
  { intros [= <- <-]. done. }
  destruct (rec g S) as [[r S1]|] eqn:E1; simpl; [|done].
  destruct (fillCalls rec gs S1) as [[Found S2]|] eqn:E2; simpl; [|done].
  intros [= <- <-].
  apply Hrec in E1 as (Hsub1 & Ht1 & Hf1); [|apply list_elem_of_here].
  apply IH in E2 as (Hsub2 & Ht2 & Hf2);
    [|intros g' T b' T' Hg'; apply Hrec; by apply list_elem_of_further].
  split_and!.
  - set_solver.
  - intros Hor. destruct r.
    + exists g. split; [apply list_elem_of_here|]. specialize (Ht1 eq_refl). set_solver.
    + simpl in Hor. destruct (Ht2 Hor) as (g' & Hg' & Hin).
      exists g'. split; [by apply list_elem_of_further|done].
  - intros [-> ->]%orb_false_iff. rewrite (Hf2 eq_refl). by apply Hf1.
Qed.

Lemma fillTransitiveSplitterCallers_Function_grows M SAA fuel :
  ∀ F S b S', fillTransitiveSplitterCallers_Function fuel M SAA F S = Some (b, S') →
    S ⊆ S' ∧ (b = true ↔ F ∈ S') ∧ (b = false → S' = S).
Proof. forget_oracles.
  induction fuel as [|fuel IH]; intros F S b S'; simpl; [done|].
  destruct (isSplitterFunc SAA F).
  { intros [= <- <-]. split_and!; [set_solver|split; [set_solver|done]|done]. }
  case_bool_decide as HF.
  { intros [= <- <-]. done. }
  destruct (fillCalls _ _ S) as [[Found S1]|] eqn:E; simpl; [|done].
  apply fillCalls_grows in E as (Hsub & _ & Hf);
    [|intros g T b' T' _ Hg; apply IH in Hg as (? & [? _] & ?); done].
  destruct Found; intros [= <- <-].
  - split_and!; [set_solver|split; [set_solver|done]|done].
  - rewrite (Hf eq_refl). split_and!; [done|split; [done|by intros ?]|done].
Qed.

(** X16: the finder only adds to the set it is given, and its flag tells
    what it did, whatever the set was at the start: the flag for a function
    is [true] exactly if the function is in the set afterwards; a flag
    [false], for a function or for a list of blocks, means that the set is
    as it was; and a flag [true] for a list of blocks means that a function
    called in the blocks is in the set. *)
Theorem finder_flag_tells_membership (M : Module) (SAA : SplitterAnnotationInfo) :
  (∀ fuel F S b S',
     fillTransitiveSplitterCallers_Function fuel M SAA F S = Some (b, S') →
     S ⊆ S' ∧ (b = true ↔ F ∈ S') ∧ (b = false → S' = S)) ∧
  (∀ fuel Blocks S b S',
     fillTransitiveSplitterCallers_Blocks fuel M SAA Blocks S = Some (b, S') →
     S ⊆ S' ∧ (b = true → ∃ g, g ∈ callees (concat Blocks) ∧ g ∈ S') ∧
     (b = false → S' = S)).
Proof.
  split.
  - intros fuel. apply fillTransitiveSplitterCallers_Function_grows.
  - intros fuel Blocks S b S' E. unfold fillTransitiveSplitterCallers_Blocks in E.
    apply fillCalls_grows in E; [done|].
    intros g T b' T' _ Hg.
    apply fillTransitiveSplitterCallers_Function_grows in Hg as (? & [? _] & ?). done.
Qed.

(** * The precondition of the pass *)

(** X17: on a call graph that is not recursive the pass returns, through
    either entry point and for either scope, whatever the loop analysis
    answers: there is a budget from which on the finder and the two
    [do ... while] loops of the inliner come to an end. *)
Theorem pass_terminates (M : Module) (SAA : SplitterAnnotationInfo) (F : string)
    (rank : string → nat) :
  ranked M rank = true →
  ∃ n0, ∀ fuel, n0 ≤ fuel →
    is_Some (runOnFunction fuel M SAA F) ∧ is_Some (run fuel M (Some SAA) F).
Proof.
  intros Hd%ranked_descending.
  exists (rank F + pending M SAA rank M F + 3). intros fuel Hfuel.
  assert (Hinl : is_Some (inlineSplitter_Function fuel M F SAA)).
  { unfold inlineSplitter_Function.
    destruct (getSingleWorkItemLoop (getBody M F)) as [L|].
    - unfold inlineSplitter_Loop. destruct (isWorkItemLoop L); simpl; [|done].
      unfold fillTransitiveSplitterCallers_Loop.
      destruct (fillTransitiveSplitterCallers_Blocks_total M SAA rank fuel
                  ((λ b, getBlock M F b) <$> getBlocks L) Hd) as [[Found SC] E].
      { intros g (b & _ & Hg)%loop_blocks_calls.
        apply getBlock_calls, Hd in Hg. lia. }
      rewrite E. simpl. destruct Found; simpl; [|done].
      unfold inlineCallsInLoop.
      destruct (inlineCallsInLoop_from_total M SAA rank F SC Hd
                  (hd 0 (getBlocks L)) fuel M L)
        as (c & M' & L' & E' & _); [by apply tracks_start|lia|].
      by rewrite E'.
    - destruct (fillTransitiveSplitterCallers_Function_total M SAA rank fuel Hd F ∅)
        as [[Found SC] E]; [lia|].
      rewrite E. simpl. destruct Found; simpl; [|done].
      destruct (inlineCallsInFunction_total M SAA rank F SC Hd fuel M)
        as (c & M' & E' & _); [by apply tracks_start|lia|].
      by rewrite E'. }
  unfold runOnFunction, run. destruct (isKernelFunc SAA F); simpl; [|done].
  split; [done|]. destruct Hinl as [[c M'] ->]. simpl. by destruct c.
Qed.

Section Recursion.
Context (M : Module) (SAA : SplitterAnnotationInfo) (Cyc : string → Prop).
Hypothesis Hcyc :
  ∀ f, Cyc f → isSplitterFunc SAA f = false ∧ ∃ g, calls M f g ∧ Cyc g.

Lemma fillCalls_diverges rec gs :
  (∀ g S, g ∈ gs → (∀ h, h ∈ S → ¬ Cyc h) →
     (Cyc g → rec g S = None) ∧
     (∀ b S', rec g S = Some (b, S') → ∀ h, h ∈ S' → ¬ Cyc h)) →
  ∀ S, (∀ h, h ∈ S → ¬ Cyc h) →
    ((∃ g, g ∈ gs ∧ Cyc g) → fillCalls rec gs S = None) ∧
    (∀ b S', fillCalls rec gs S = Some (b, S') → ∀ h, h ∈ S' → ¬ Cyc h).
Proof using Type. forget_oracles.
  induction gs as [|g gs IH]; intros Hrec S HS; simpl.
  { split; [|by intros b S' [= <- <-]].
    intros (g & Hg & _). by apply not_elem_of_nil in Hg. }
  destruct (Hrec g S (list_elem_of_here _ _) HS) as [Hnone Hsome].
  destruct (rec g S) as [[r S1]|] eqn:E; simpl; [|done].
  destruct (IH (λ g' T Hg', Hrec g' T (list_elem_of_further _ _ _ Hg')) S1
              (Hsome r S1 eq_refl)) as [IHn IHs].
  split.
  - intros (g' & [->|Hg']%elem_of_cons & HC).
    + by specialize (Hnone HC).
    + rewrite IHn; [done|eauto].
  - destruct (fillCalls rec gs S1) as [[Found S2]|] eqn:E2; simpl; [|done].
    intros b S' [= <- <-]. by eapply IHs.
Qed.

Lemma fillTransitiveSplitterCallers_Function_diverges fuel :
  ∀ F S, (∀ h, h ∈ S → ¬ Cyc h) →
    (Cyc F → fillTransitiveSplitterCallers_Function fuel M SAA F S = None) ∧
    (∀ b S', fillTransitiveSplitterCallers_Function fuel M SAA F S = Some (b, S') →
             ∀ h, h ∈ S' → ¬ Cyc h).
Proof using Hcyc. forget_oracles.
  induction fuel as [|fuel IH]; intros F S HS; simpl; [done|].
  destruct (isSplitterFunc SAA F) eqn:Hs.
  { split.
    - intros HC. destruct (Hcyc F HC). congruence.
    - intros b S' [= <- <-] h [->%elem_of_singleton|Hh]%elem_of_union;
        [|by apply HS].
      intros HC. destruct (Hcyc _ HC). congruence. }
  case_bool_decide as HF.
  { split; [|by intros b S' [= <- <-]]. intros HC. by destruct (HS F HF). }
  destruct (fillCalls_diverges (fillTransitiveSplitterCallers_Function fuel M SAA)
              (callees (concat (getBody M F))) (λ g T _ HT, IH g T HT) S HS)
    as [Hn Hs'].
  split.
  - intros HC. destruct (Hcyc F HC) as [_ (g & Hg & HCg)].
    rewrite Hn; [done|]. by exists g.
  - destruct (fillCalls _ _ S) as [[Found S1]|] eqn:E; simpl; [|done].
    intros b S'. pose proof (Hs' _ _ eq_refl) as HS1.
    destruct Found; intros [= <- <-]; [|done].
    intros h [->%elem_of_singleton|Hh]%elem_of_union; [|by apply HS1].
    intros HC. destruct (Hcyc _ HC) as [_ (g & Hg & HCg)].
    assert (Hex : ∃ g, g ∈ callees (concat (getBody M F)) ∧ Cyc g) by by exists g.
    by specialize (Hn Hex).
Qed.
End Recursion.

(** X18: the finder has no guard against recursion.  Given functions that
    are not splitters and of which each calls another of them (a cycle of
    the call graph that no splitter breaks, and what leads to it), the
    finder started on one of them, with none of them in the set, does not
    return, whatever the budget; neither does it for blocks that call one
    of them, nor does the pass for a kernel among them in which no
    work-item loop is identified. *)
Theorem finder_diverges_on_recursion (M : Module) (SAA : SplitterAnnotationInfo)
    (Cyc : string → Prop) :
  (∀ f, Cyc f → isSplitterFunc SAA f = false ∧ ∃ g, calls M f g ∧ Cyc g) →
  (∀ fuel F S, Cyc F → (∀ h, h ∈ S → ¬ Cyc h) →
     fillTransitiveSplitterCallers_Function fuel M SAA F S = None) ∧
  (∀ fuel Blocks, (∃ g, g ∈ callees (concat Blocks) ∧ Cyc g) →
     fillTransitiveSplitterCallers_Blocks fuel M SAA Blocks ∅ = None) ∧
  (∀ fuel F, isKernelFunc SAA F = true →
     getSingleWorkItemLoop (getBody M F) = None → Cyc F →
     runOnFunction fuel M SAA F = None).
Proof.
  intros Hcyc.
  assert (Hfun : ∀ fuel F S, Cyc F → (∀ h, h ∈ S → ¬ Cyc h) →
            fillTransitiveSplitterCallers_Function fuel M SAA F S = None).
  { intros fuel F S HC HS.
    by apply (fillTransitiveSplitterCallers_Function_diverges M SAA Cyc Hcyc fuel F S). }
  split_and!; [done| |].
  - intros fuel Blocks Hex. unfold fillTransitiveSplitterCallers_Blocks.
    apply (fillCalls_diverges Cyc); [|set_solver|done].
    intros g S _ HS.
    by apply (fillTransitiveSplitterCallers_Function_diverges M SAA Cyc Hcyc).
  - intros fuel F HK Hloop HC. unfold runOnFunction, inlineSplitter_Function.
    rewrite HK, Hloop. simpl. rewrite Hfun; [done|done|set_solver].
Qed.

(** * Every call of the scope, followed through the run of the inliner *)

Lemma app_cons_split {A} (q q0 : list A) (x x0 : A) (post post0 : list A) :
  q ++ x :: post = q0 ++ x0 :: post0 →
  (q = q0 ∧ x = x0 ∧ post = post0) ∨
  (∃ r, q = q0 ++ x0 :: r ∧ post0 = r ++ x :: post) ∨
  (∃ r, q0 = q ++ x :: r ∧ post = r ++ x0 :: post0).
Proof. forget_oracles.
  revert q0. induction q as [|y q IH]; intros [|y0 q0] E; simpl in E.
  - injection E as Hx Hp. subst. by left.
  - injection E as Hx Hp. subst. right; right. by exists q0.
  - injection E as Hx Hp. subst. right; left. by exists q.
  - injection E as Hy E. subst y0.
    destruct (IH q0 E) as [(Hq & Hx & Hp)|[(r & Hq & Hp)|(r & Hq & Hp)]]; subst.
    + by left.
    + right; left. by exists r.
    + right; right. by exists r.
Qed.

Lemma step_other_block M F b SC SAA M' b' :
  step M F b SC SAA M' → b' ≠ b → b' < length (getBody M F) →
  getBlock M' F b' = getBlock M F b'.
Proof. forget_oracles.
  intros (q & g & post & blk' & extra & news & _ & _ & _ & -> & _)%step_summary Hne Hlt.
  unfold getBlock. rewrite getBody_insert_eq.
  rewrite lookup_app_l by (by rewrite length_insert).
  by rewrite list_lookup_insert_ne.
Qed.

Lemma scans_snoc F SC SAA M M1 b M2 :
  scans F SC SAA M M1 → step M1 F b SC SAA M2 → scans F SC SAA M M2.
Proof. forget_oracles.
  induction 1 as [M|M b0 Ma M1 Hs _ IH]; intros Hlast.
  - eapply scans_step; [done|apply scans_refl].
  - eapply scans_step; [done|by apply IH].
Qed.

Lemma scans_off F SC SAA M M1 :
  scans F SC SAA M M1 → ∀ G, G ≠ F → M1 !! G = M !! G.
Proof. forget_oracles.
  induction 1 as [M|M b0 Ma M1 Hs _ IH]; intros G HG; [done|].
  apply step_callees in Hs as (_ & _ & _ & _ & _ & Hoff & _).
  by rewrite IH, Hoff.
Qed.

Lemma scans_bodies F SC SAA M M1 g :
  scans F SC SAA M M1 → getBody M g ≠ [] → getBody M1 g ≠ [].
Proof. forget_oracles.
  induction 1 as [M|M b0 Ma M1 Hs _ IH]; intros Hg; [done|].
  apply IH. by eapply step_keeps_bodies.
Qed.

Lemma step_keeps_barrierCalls M1 F b SC SAA M2 :
  step M1 F b SC SAA M2 → barrierCalls M1 F ≤ barrierCalls M2 F.
Proof. forget_oracles.
  intros (g & news & X & Hold & Hnew & _ & _ & Hkind)%step_callees.
  assert (Hne : g ≠ BarrierIntrinsicName).
  { by destruct Hkind as [(_ & _ & ? & _)|(_ & ? & _)]. }
  unfold barrierCalls.
  rewrite (Permutation_length (filter_Permutation _ _ _ Hold)).
  rewrite (Permutation_length (filter_Permutation _ _ _ Hnew)).
  rewrite filter_cons_False by done.
  rewrite filter_app, length_app. lia.
Qed.

(** The three inliners return on a call graph that is not recursive. *)
Lemma inliners_total M SAA rank F SC fuel :
  descending M rank → pending M SAA rank M F + 2 ≤ fuel →
  is_Some (inlineCallsInFunction fuel M F SC SAA) ∧
  (∀ L, is_Some (inlineCallsInLoop fuel M F L SC SAA)) ∧
  (∀ b, is_Some (inlineCallsInBasicBlock fuel M F b SC SAA)).
Proof.
  intros Hd Hfuel. pose proof (tracks_start M rank F Hd) as Ht. split_and!.
  - destruct (inlineCallsInFunction_total M SAA rank F SC Hd fuel M Ht)
      as (c & M' & -> & _); [lia|done].
  - intros L. unfold inlineCallsInLoop.
    destruct (inlineCallsInLoop_from_total M SAA rank F SC Hd
                (hd 0 (getBlocks L)) fuel M L Ht) as (c & M' & L' & -> & _); [lia|done].
  - intros b.
    destruct (inlineCallsInBasicBlock_total M SAA rank F SC Hd b fuel M Ht)
      as (c & M' & -> & _); [lia|done].
Qed.

(** The inliners take no call to the barrier intrinsic away. *)
Lemma inliners_keep_barrierCalls M F SC SAA :
  (∀ fuel c M', inlineCallsInFunction fuel M F SC SAA = Some (c, M') →
     barrierCalls M F ≤ barrierCalls M' F) ∧
  (∀ fuel L c M' L', inlineCallsInLoop fuel M F L SC SAA = Some (c, M', L') →
     barrierCalls M F ≤ barrierCalls M' F) ∧
  (∀ fuel b c M', inlineCallsInBasicBlock fuel M F b SC SAA = Some (c, M') →
     barrierCalls M F ≤ barrierCalls M' F).
Proof.
  set (P := λ M1 : Module, barrierCalls M F ≤ barrierCalls M1 F).
  assert (Hweak : ∀ M1, P M1 → P M1) by done.
  assert (Hstep : ∀ SC0 M1 b M2, P M1 → step M1 F b SC0 SAA M2 → P M2).
  { intros SC0 M1 b M2 HP Hs. apply step_keeps_barrierCalls in Hs. unfold P in *. lia. }
  assert (HP0 : P M) by (unfold P; lia).
  split_and!.
  - intros fuel c M' Hrun.
    apply (inlineCallsInFunction_progress F SAA P P Hweak Hstep) in Hrun; [|done].
    destruct c; [done|by subst].
  - intros fuel L c M' L' Hrun. unfold inlineCallsInLoop in Hrun.
    apply (inlineCallsInLoop_from_progress F SAA P P Hweak Hstep) in Hrun; [|done].
    destruct c; [done|by subst].
  - intros fuel b c M' Hrun.
    apply (inlineCallsInBasicBlock_progress F SAA P P Hweak Hstep) in Hrun; [|done].
    destruct c; [done|by subst].
Qed.

Section Tracking.
Context (F : string) (SC : gset string) (SAA : SplitterAnnotationInfo).
Context (M0 : Module) (b : nat) (g : string) (post : BasicBlock).
Hypothesis Hact : ∀ M1, scans F SC SAA M0 M1 → actionable M1 SC SAA g = true.

Lemma tracked_start pre :
  getBlock M0 F b = pre ++ Call (Some g) :: post →
  tracked F SC SAA M0 b g post M0.
Proof using Type. forget_oracles.
  intros Hblk. split_and!; [apply scans_refl|done|].
  right. exists b, pre. split; [by left|done].
Qed.

Lemma tracked_step M1 b0 M2 :
  tracked F SC SAA M0 b g post M1 → step M1 F b0 SC SAA M2 →
  tracked F SC SAA M0 b g post M2.
Proof using Hact. forget_oracles.
  intros (Hsc & Hlen & Hcase) Hs.
  pose proof (scans_snoc _ _ _ _ _ _ _ Hsc Hs) as Hsc2.
  assert (Hlen2 : length (getBody M1 F) ≤ length (getBody M2 F)).
  { by apply step_callees in Hs as (_ & _ & _ & _ & _ & _ & ? & _). }
  split_and!; [done|lia|].
  destruct Hcase as [(Ma & ba & pa & Mb & ? & ? & ? & ? & Hsc')|(b1 & q & Hb1 & Hblk)].
  { left. exists Ma, ba, pa, Mb. split_and!; try done. by eapply scans_snoc. }
  assert (Hlt : b1 < length (getBody M1 F)).
  { apply getBlock_nonempty_lt. rewrite Hblk. by destruct q. }
  destruct (decide (b0 = b1)) as [->|Hne]; cycle 1.
  { right. exists b1, q. split; [done|].
    by rewrite (step_other_block M1 F b0 SC SAA M2 b1). }
  pose proof Hs as Hs'. unfold step in Hs'.
  apply scanBlock_Some in Hs' as (q0 & g0 & post0 & Hrest & Hq0 & Hkind).
  simpl in Hkind. rewrite Hblk in Hrest.
  apply app_cons_split in Hrest
    as [(-> & [= ->] & ->)|[(r & -> & ->)|(r & -> & _)]].
  - (* the scan acts on the call *)
    left. exists M1, b1, q0, M2. split_and!; try done. apply scans_refl.
  - (* the scan acts on a call before it *)
    right. destruct Hkind as [(Hin & Hns & Hinl)|(Hsp & Hne0 & ->)].
    + unfold checkedInlineFunction in Hinl. case_bool_decide; [done|].
      destruct (getBody M1 g0) as [|c [|c' cs]] eqn:Hbody; [done| |];
        injection Hinl as <-.
      * exists b1, (q0 ++ c ++ r). split; [done|].
        unfold getBlock. rewrite getBody_insert_eq, list_lookup_insert_eq by done.
        simpl. by rewrite <- !app_assoc.
      * exists (length (getBody M1 F) + length (c' :: cs)), r.
        split; [right; lia|].
        unfold getBlock. rewrite getBody_insert_eq.
        rewrite lookup_app_r by (rewrite length_insert; lia).
        rewrite length_insert.
        replace (length (getBody M1 F) + length (c' :: cs) - length (getBody M1 F))
          with (length (c' :: cs)) by lia.
        change (c' :: cs ++ [r ++ Call (Some g) :: post])
          with ((c' :: cs) ++ [r ++ Call (Some g) :: post]).
        rewrite lookup_app_r by done. by rewrite Nat.sub_diag.
    + exists b1, (q0 ++ Call (Some BarrierIntrinsicName) :: r). split; [done|].
      unfold lowerCall, getBlock.
      rewrite getBody_insert_eq, list_lookup_insert_eq by done.
      simpl. by rewrite <- app_assoc.
  - (* a scan does not walk past the call *)
    exfalso. rewrite callees_app in Hq0. simpl in Hq0.
    apply Forall_app in Hq0 as [_ Hq0]. apply Forall_cons in Hq0 as [Hq0 _].
    rewrite (Hact M1 Hsc) in Hq0. done.
Qed.

Lemma tracked_not_quiet M1 b1 q :
  scans F SC SAA M0 M1 → getBlock M1 F b1 = q ++ Call (Some g) :: post →
  ¬ quiet M1 F SC SAA b1.
Proof using Hact. forget_oracles.
  intros Hsc Hblk Hq. unfold quiet in Hq. rewrite Hblk, callees_app in Hq.
  simpl in Hq. apply Forall_app in Hq as [_ Hq]. apply Forall_cons in Hq as [Hq _].
  rewrite (Hact M1 Hsc) in Hq. done.
Qed.

Lemma tracked_function pre fuel c M' :
  getBlock M0 F b = pre ++ Call (Some g) :: post →
  inlineCallsInFunction fuel M0 F SC SAA = Some (c, M') →
  c = true ∧ actedOnTheWay F SC SAA M0 g post M'.
Proof using Hact.
  intros Hblk Hrun.
  destruct (inlineCallsInFunction_inv F SC SAA (tracked F SC SAA M0 b g post))
    with (fuel := fuel) (M := M0) (c := c) (M' := M')
    as ((Hsc & _ & Hcase) & Hq & Hsame);
    [by intros M1 b0 M2; apply tracked_step|by eapply tracked_start|done|].
  split.
  - destruct c; [done|]. rewrite (Hsame eq_refl) in Hq.
    by destruct (tracked_not_quiet M0 b pre (scans_refl _ _ _ _) Hblk).
  - destruct Hcase as [|(b1 & q & _ & Hb1)]; [done|].
    by destruct (tracked_not_quiet M' b1 q Hsc Hb1).
Qed.

Lemma tracked_loop pre fuel L c M' L' :
  getBlock M0 F b = pre ++ Call (Some g) :: post →
  b ∈ getBlocks L →
  inlineCallsInLoop fuel M0 F L SC SAA = Some (c, M', L') →
  c = true ∧
  (actedOnTheWay F SC SAA M0 g post M' ∨
   ∃ b1 q, b1 ∉ getBlocks L' ∧ getBlock M' F b1 = q ++ Call (Some g) :: post).
Proof using Hact.
  intros Hblk HbL Hrun. unfold inlineCallsInLoop in Hrun.
  destruct (inlineCallsInLoop_from_inv F SC SAA (tracked F SC SAA M0 b g post)
              (λ _, True) (λ M1 b0 M2 _, tracked_step M1 b0 M2)
              (hd 0 (getBlocks L)) fuel (λ _ _ _, I) M0 L c M' L')
    as ((Hsc & _ & Hcase) & Hq & Hsame & _); [done|by eapply tracked_start|done|].
  split.
  - destruct c; [done|]. destruct (Hsame eq_refl) as [-> ->].
    by destruct (tracked_not_quiet M0 b pre (scans_refl _ _ _ _) Hblk); apply Hq.
  - destruct Hcase as [|(b1 & q & _ & Hb1)]; [by left|right].
    exists b1, q. split; [|done]. intros Hin.
    by destruct (tracked_not_quiet M' b1 q Hsc Hb1); apply Hq.
Qed.

Lemma tracked_block pre fuel c M' :
  getBlock M0 F b = pre ++ Call (Some g) :: post →
  inlineCallsInBasicBlock fuel M0 F b SC SAA = Some (c, M') →
  c = true ∧
  (actedOnTheWay F SC SAA M0 g post M' ∨
   ∃ b1 q, length (getBody M0 F) ≤ b1 ∧
           getBlock M' F b1 = q ++ Call (Some g) :: post).
Proof using Hact.
  intros Hblk Hrun.
  destruct (inlineCallsInBasicBlock_inv F SC SAA (tracked F SC SAA M0 b g post)
              (λ _, True) (λ M1 b0 M2 _, tracked_step M1 b0 M2)
              b fuel I M0 c M')
    as ((Hsc & _ & Hcase) & Hq & Hsame); [by eapply tracked_start|done|].
  split.
  - destruct c; [done|]. rewrite (Hsame eq_refl) in Hq.
    by destruct (tracked_not_quiet M0 b pre (scans_refl _ _ _ _) Hblk).
  - destruct Hcase as [|(b1 & q & [->|Hnew] & Hb1)]; [by left| |right; eauto].
    by destruct (tracked_not_quiet M' b q Hsc Hb1).
Qed.
End Tracking.

Lemma acted_lowered F SC SAA M g post M' :
  isSplitterFunc SAA g = true → g ≠ BarrierIntrinsicName →
  actedOnTheWay F SC SAA M g post M' → loweredOnTheWay F SC SAA M g post M'.
Proof. forget_oracles.
  intros Hsp Hne (M1 & b1 & pre1 & M2 & Hsc & Hblk & Hpre & Hs & Hsc').
  destruct (scan_lowers M1 F b1 SC SAA pre1 post g Hblk Hpre Hsp Hne)
    as (M2' & Hscan & Hbody & Hoff).
  unfold step in Hs. rewrite Hscan in Hs. injection Hs as ->.
  by exists M1, b1, pre1, M2.
Qed.

Lemma acted_inlined F SC SAA M g post M' :
  g ∈ SC → isSplitterFunc SAA g = false → g ≠ BarrierIntrinsicName →
  getBody M g ≠ [] →
  actedOnTheWay F SC SAA M g post M' → inlinedOnTheWay F SC SAA M g post M'.
Proof. forget_oracles.
  intros Hin Hns Hne Hbody (M1 & b1 & pre1 & M2 & Hsc & Hblk & Hpre & Hs & Hsc').
  pose proof (scans_bodies F SC SAA M M1 g Hsc Hbody) as Hbody1.
  destruct (getBody M1 g) as [|c cs] eqn:Hg; [done|].
  destruct (scan_inlines M1 F b1 SC SAA pre1 post g c cs Hblk Hpre Hin Hns Hne Hg)
    as (M2' & Hscan & Hbody2 & Hoff).
  unfold step in Hs. rewrite Hscan in Hs. injection Hs as ->.
  exists M1, b1, pre1, M2, c, cs. split_and!; try done.
  intros HgF. unfold getBody in Hg |- *.
  by rewrite <- (scans_off F SC SAA M M1 Hsc g HgF), Hg.
Qed.

Lemma splitter_actionable M1 SC SAA g :
  isSplitterFunc SAA g = true → g ≠ BarrierIntrinsicName →
  actionable M1 SC SAA g = true.
Proof. forget_oracles.
  intros Hsp Hne. unfold actionable. rewrite Hsp, andb_false_r. simpl.
  by rewrite bool_decide_eq_false_2.
Qed.

Lemma caller_actionable M1 SC SAA g :
  g ∈ SC → isSplitterFunc SAA g = false → g ≠ BarrierIntrinsicName →
  getBody M1 g ≠ [] → actionable M1 SC SAA g = true.
Proof. forget_oracles.
  intros Hin Hns Hne Hbody. unfold actionable, inlinable.
  rewrite bool_decide_eq_true_2, Hns by done. simpl.
  by rewrite !bool_decide_eq_false_2.
Qed.



End Pass.

(** * The properties at sample modules *)

Lemma non_kernel_untouched_witness :
  isKernelFunc sampleSAA "helper" = false ∧
  runOnFunction sampleBarrier sampleNoLoop sampleIsWorkItem sampleUpdate
    5 sampleModule sampleSAA "helper" = Some (false, sampleModule).
Proof.
  split; [reflexivity|].
  apply (non_kernel_untouched sampleBarrier sampleNoLoop sampleIsWorkItem
           sampleUpdate 5 sampleModule sampleSAA "helper").
  reflexivity.
Defined.



Lemma scope_selection_witness :
  sampleGetLoop (getBody sampleModule "kernel") = Some {| getBlocks := [1] |} ∧
  sampleNotWorkItem {| getBlocks := [1] |} = false ∧
  inlineSplitter_Function sampleBarrier sampleGetLoop sampleNotWorkItem sampleUpdate
    9 sampleModule "kernel" sampleSAA
  = Some (false, sampleModule).
Proof.
  split_and!; [reflexivity..|].
  destruct (scope_selection sampleBarrier sampleGetLoop sampleNotWorkItem
              sampleUpdate 9 sampleModule "kernel" sampleSAA) as (_ & _ & H).
  apply (H {| getBlocks := [1] |}); reflexivity.
Defined.

(** C5, as stated, fails: with a loop identified that is not classified as
    a work-item loop the driver does nothing, where the transformation of
    the whole function would have inlined the chain to the barrier. *)
Lemma no_fallback_for_non_work_item_loop :
  sampleGetLoop (getBody sampleModule "kernel") = Some {| getBlocks := [1] |} ∧
  sampleNotWorkItem {| getBlocks := [1] |} = false ∧
  inlineSplitter_Function sampleBarrier sampleGetLoop sampleNotWorkItem sampleUpdate
    9 sampleModule "kernel" sampleSAA
    = Some (false, sampleModule) ∧
  functionScoped sampleBarrier 9 sampleModule "kernel" sampleSAA
    = Some (true, sampleFunctionOutput) ∧
  inlineSplitter_Function sampleBarrier sampleGetLoop sampleNotWorkItem sampleUpdate
    9 sampleModule "kernel" sampleSAA
    ≠ functionScoped sampleBarrier 9 sampleModule "kernel" sampleSAA.
Proof.
  split_and!; [reflexivity|reflexivity|reflexivity|by vm_compute|].
  vm_compute. discriminate.
Qed.


Lemma finder_computes_open_reach_witness :
  ranked sampleModule sampleRank = true ∧
  sampleRank "kernel" < 4 ∧
  ∃ Found S,
    fillTransitiveSplitterCallers_Function 4 sampleModule sampleSAA "kernel" ∅
      = Some (Found, S) ∧
    (∀ h, h ∈ S ↔ ("kernel" = h ∨ reachesOpen sampleModule sampleSAA "kernel" h) ∧
                  hits sampleModule sampleSAA h) ∧
    (Found = true ↔ "kernel" ∈ S).
Proof.
  split; [reflexivity|]. split; [vm_compute; lia|].
  destruct (finder_computes_open_reach sampleModule sampleSAA sampleRank 4) as [_ H].
  - reflexivity.
  - apply (H "kernel"). vm_compute. lia.
Defined.

(** C2, as stated, fails: the finder does not enter the body of a
    splitter, so a splitter that is called from a splitter only is not in
    the set, though it is reachable from the scope through direct calls and
    is annotated as a splitter. *)
Lemma finder_stops_at_splitters :
  ranked sampleNestedModule sampleNestedRank = true ∧
  fillTransitiveSplitterCallers_Blocks 3 sampleNestedModule sampleNestedSAA
    (getBody sampleNestedModule "kernel") ∅ = Some (true, {["group_barrier"]}) ∧
  scopeReaches sampleNestedModule
    (callees (concat (getBody sampleNestedModule "kernel"))) "local_barrier" ∧
  hits sampleNestedModule sampleNestedSAA "local_barrier" ∧
  ("local_barrier" ∉ ({["group_barrier"]} : gset string)) ∧
  ¬ (∀ h, h ∈ ({["group_barrier"]} : gset string) ↔
          scopeReaches sampleNestedModule
            (callees (concat (getBody sampleNestedModule "kernel"))) h ∧
          hits sampleNestedModule sampleNestedSAA h).
Proof.
  assert (Hreach : scopeReaches sampleNestedModule
            (callees (concat (getBody sampleNestedModule "kernel"))) "local_barrier").
  { exists "group_barrier". split; [apply list_elem_of_here|]. right.
    apply reaches_call. unfold calls. apply list_elem_of_here. }
  assert (Hhits : hits sampleNestedModule sampleNestedSAA "local_barrier").
  { by left. }
  assert (Hout : "local_barrier" ∉ ({["group_barrier"]} : gset string)).
  { intros H%elem_of_singleton. discriminate. }
  split_and!; [reflexivity|by vm_compute|done|done|done|].
  intros H. apply Hout, H. done.
Qed.

Lemma no_splitter_no_change_witness :
  ranked sampleCalmModule sampleCalmRank = true ∧
  isKernelFunc sampleSAA "kernel" = true ∧
  (∀ s, reaches sampleCalmModule "kernel" s → isSplitterFunc sampleSAA s = false) ∧
  sampleCalmRank "kernel" + 1 < 3 ∧
  runOnFunction sampleBarrier sampleNoLoop sampleIsWorkItem sampleUpdate
    3 sampleCalmModule sampleSAA "kernel" = Some (false, sampleCalmModule) ∧
  run sampleBarrier sampleNoLoop sampleIsWorkItem sampleUpdate
    3 sampleCalmModule (Some sampleSAA) "kernel" = Some (PreservedAll, sampleCalmModule).
Proof.
  assert (Hkernel : ∀ g, calls sampleCalmModule "kernel" g → g = "scale").
  { intros g Hg. unfold calls in Hg.
    change (callees (concat (getBody sampleCalmModule "kernel"))) with ["scale"] in Hg.
    by apply list_elem_of_singleton in Hg. }
  assert (Hscale : ∀ g, ¬ calls sampleCalmModule "scale" g).
  { intros g Hg. unfold calls in Hg.
    change (callees (concat (getBody sampleCalmModule "scale"))) with (@nil string) in Hg.
    by apply not_elem_of_nil in Hg. }
  assert (Hreach : ∀ s, reaches sampleCalmModule "kernel" s →
                        isSplitterFunc sampleSAA s = false).
  { intros s Hr. inversion Hr as [f g Hc|f g h Hc Hr']; subst.
    - apply Hkernel in Hc. by subst.
    - apply Hkernel in Hc. subst.
      inversion Hr' as [f g Hc'|f g h' Hc' _]; subst; by apply Hscale in Hc'. }
  split_and!; [reflexivity|reflexivity|exact Hreach|vm_compute; lia| |];
    apply (no_splitter_no_change sampleBarrier sampleNoLoop sampleIsWorkItem
             sampleUpdate sampleCalmModule sampleSAA "kernel" sampleCalmRank 3);
    try reflexivity; try exact Hreach; vm_compute; lia.
Defined.


Lemma loop_scope_frame_witness :
  sampleGetLoop (getBody sampleModule "kernel") = Some {| getBlocks := [1] |} ∧
  runOnFunction sampleBarrier sampleGetLoop sampleIsWorkItem sampleUpdate
    10 sampleModule sampleSAA "kernel" = Some (true, sampleLoopOutput) ∧
  0 < length (getBody sampleModule "kernel") ∧
  0 ∉ [1] ∧
  (∀ body, 0 ∉ getBlocks (sampleUpdate body 1)) ∧
  getBody sampleLoopOutput "kernel" !! 0 = Some [Other 0; Call (Some "helper"); Other 1].
Proof.
  assert (Hrun : runOnFunction sampleBarrier sampleGetLoop sampleIsWorkItem sampleUpdate
                   10 sampleModule sampleSAA "kernel" = Some (true, sampleLoopOutput)).
  { by vm_compute. }
  assert (Hlen : 0 < length (getBody sampleModule "kernel")).
  { change (length (getBody sampleModule "kernel")) with 2. lia. }
  assert (Hout : 0 ∉ [1]).
  { intros H%list_elem_of_singleton. discriminate. }
  assert (Hnever : ∀ body, 0 ∉ getBlocks (sampleUpdate body 1)).
  { intros body H. simpl in H. apply elem_of_cons in H as [H|H]; [discriminate|].
    apply elem_of_seq in H. lia. }
  split_and!; [reflexivity|exact Hrun|exact Hlen|exact Hout|exact Hnever|].
  destruct (loop_scope_frame sampleBarrier sampleGetLoop sampleIsWorkItem sampleUpdate
              10 sampleModule "kernel" sampleSAA {| getBlocks := [1] |}
              true sampleLoopOutput eq_refl Hrun) as [Hblocks _].
  rewrite (Hblocks 0 Hlen Hout Hnever). reflexivity.
Defined.

Lemma pass_idempotent_witness :
  ranked sampleModule sampleRank = true ∧
  getBody sampleModule sampleBarrier = [] ∧
  coherent sampleGetLoop sampleUpdate sampleModule "kernel" sampleLoopOutput ∧
  runOnFunction sampleBarrier sampleGetLoop sampleIsWorkItem sampleUpdate
    10 sampleModule sampleSAA "kernel" = Some (true, sampleLoopOutput) ∧
  sampleRank "kernel" + 3 ≤ 10 ∧
  runOnFunction sampleBarrier sampleGetLoop sampleIsWorkItem sampleUpdate
    10 sampleLoopOutput sampleSAA "kernel" = Some (false, sampleLoopOutput).
Proof.
  assert (Hcoh : coherent sampleGetLoop sampleUpdate sampleModule "kernel"
                   sampleLoopOutput).
  { unfold coherent. change (sampleGetLoop (getBody sampleModule "kernel"))
      with (Some {| getBlocks := [1] |}). split.
    - intros body b Hb Hlt. simpl in Hb.
      apply elem_of_cons in Hb as [->|Hb]; [apply list_elem_of_here|].
      apply elem_of_seq in Hb.
      change (length (getBody sampleModule "kernel")) with 2 in Hlt. lia.
    - eexists. split; [reflexivity|]. intros b Hb. exact Hb. }
  assert (Hrun : runOnFunction sampleBarrier sampleGetLoop sampleIsWorkItem sampleUpdate
                   10 sampleModule sampleSAA "kernel" = Some (true, sampleLoopOutput)).
  { by vm_compute. }
  assert (Hfuel : sampleRank "kernel" + 3 ≤ 10) by (vm_compute; lia).
  split_and!; [reflexivity|reflexivity|exact Hcoh|exact Hrun|exact Hfuel|].
  apply (pass_idempotent sampleBarrier sampleGetLoop sampleIsWorkItem sampleUpdate
           10 sampleModule sampleSAA "kernel" sampleRank true sampleLoopOutput);
    [reflexivity|reflexivity|exact Hcoh|exact Hrun|exact Hfuel].
Defined.


(** ** The further properties at sample modules *)

Lemma finder_ignores_splitter_bodies_witness :
  isSplitterFunc sampleSAA "sync" = true ∧
  fillTransitiveSplitterCallers_Function 5 (<["sync" := [[Other 9]]]> sampleModule)
    sampleSAA "kernel" ∅
  = fillTransitiveSplitterCallers_Function 5 sampleModule sampleSAA "kernel" ∅.
Proof.
  split; [reflexivity|].
  destruct (finder_ignores_splitter_bodies sampleModule sampleSAA "sync"
              [[Other 9]] eq_refl) as [H _].
  apply H.
Defined.

Lemma finder_order_independent_witness :
  (∀ g, g ∈ callees (concat (getBody sampleModule "kernel")) ↔
        g ∈ callees (concat [[Call (Some "helper")]])) ∧
  fillTransitiveSplitterCallers_Blocks 4 sampleModule sampleSAA
    (getBody sampleModule "kernel") ∅
    = Some (true, {["helper"; "inner"; "sync"]}) ∧
  fillTransitiveSplitterCallers_Blocks 6 sampleModule sampleSAA
    [[Call (Some "helper")]] ∅
    = Some (true, {["sync"; "inner"; "helper"]}) ∧
  ({["helper"; "inner"; "sync"]} : gset string) = {["sync"; "inner"; "helper"]}.
Proof.
  assert (Hsame : ∀ g, g ∈ callees (concat (getBody sampleModule "kernel")) ↔
                       g ∈ callees (concat [[Call (Some "helper")]])).
  { intros g.
    change (callees (concat (getBody sampleModule "kernel")))
      with ["helper"; "helper"].
    change (callees (concat [[Call (Some "helper")]])) with ["helper"].
    rewrite !elem_of_cons. tauto. }
  assert (E1 : fillTransitiveSplitterCallers_Blocks 4 sampleModule sampleSAA
                 (getBody sampleModule "kernel") ∅
               = Some (true, {["helper"; "inner"; "sync"]})) by by vm_compute.
  assert (E2 : fillTransitiveSplitterCallers_Blocks 6 sampleModule sampleSAA
                 [[Call (Some "helper")]] ∅
               = Some (true, {["sync"; "inner"; "helper"]})) by by vm_compute.
  split_and!; [exact Hsame|exact E1|exact E2|].
  apply (finder_order_independent sampleModule sampleSAA 4 6
           (getBody sampleModule "kernel") [[Call (Some "helper")]]
           true true _ _ Hsame E1 E2).
Defined.

Lemma finder_loop_within_function_witness :
  isSplitterFunc sampleSAA "kernel" = false ∧
  fillTransitiveSplitterCallers_Loop 4 sampleModule sampleSAA "kernel"
    {| getBlocks := [1] |} ∅ = Some (true, {["helper"; "inner"; "sync"]}) ∧
  fillTransitiveSplitterCallers_Function 5 sampleModule sampleSAA "kernel" ∅
    = Some (true, {["kernel"; "helper"; "inner"; "sync"]}) ∧
  ({["helper"; "inner"; "sync"]} : gset string)
    ⊆ {["kernel"; "helper"; "inner"; "sync"]}.
Proof.
  assert (E1 : fillTransitiveSplitterCallers_Loop 4 sampleModule sampleSAA "kernel"
                 {| getBlocks := [1] |} ∅
               = Some (true, {["helper"; "inner"; "sync"]})) by by vm_compute.
  assert (E2 : fillTransitiveSplitterCallers_Function 5 sampleModule sampleSAA
                 "kernel" ∅
               = Some (true, {["kernel"; "helper"; "inner"; "sync"]}))
    by by vm_compute.
  split_and!; [reflexivity|exact E1|exact E2|].
  apply (finder_loop_within_function sampleModule sampleSAA "kernel"
           {| getBlocks := [1] |} 4 5 true true _ _ eq_refl E1 E2).
Defined.

Lemma finder_stable_on_its_result_witness :
  fillTransitiveSplitterCallers_Function 5 sampleModule sampleSAA "kernel" ∅
    = Some (true, {["kernel"; "helper"; "inner"; "sync"]}) ∧
  ∃ Found' S',
    fillTransitiveSplitterCallers_Function 1 sampleModule sampleSAA "kernel"
      {["kernel"; "helper"; "inner"; "sync"]} = Some (Found', S') ∧
    Found' = true ∧ S' = {["kernel"; "helper"; "inner"; "sync"]}.
Proof.
  assert (E1 : fillTransitiveSplitterCallers_Function 5 sampleModule sampleSAA
                 "kernel" ∅
               = Some (true, {["kernel"; "helper"; "inner"; "sync"]}))
    by by vm_compute.
  split; [exact E1|].
  destruct (fillTransitiveSplitterCallers_Function 1 sampleModule sampleSAA "kernel"
              {["kernel"; "helper"; "inner"; "sync"]}) as [[Found' S']|] eqn:E2;
    [|by vm_compute in E2].
  exists Found', S'. split; [reflexivity|].
  destruct (finder_stable_on_its_result sampleModule sampleSAA) as [H _].
  exact (H 5 1 "kernel" true _ Found' S' E1 E2).
Defined.

Lemma no_change_reported_is_no_change_witness :
  runOnFunction sampleBarrier sampleNoLoop sampleIsWorkItem sampleUpdate
    3 sampleCalmModule sampleSAA "kernel"
    = Some (false, <["kernel" := [[Other 0; Call (Some "scale")]]]> sampleCalmModule) ∧
  <["kernel" := [[Other 0; Call (Some "scale")]]]> sampleCalmModule = sampleCalmModule.
Proof.
  assert (Hrun : runOnFunction sampleBarrier sampleNoLoop sampleIsWorkItem
                   sampleUpdate 3 sampleCalmModule sampleSAA "kernel"
                 = Some (false, <["kernel" := [[Other 0; Call (Some "scale")]]]>
                                  sampleCalmModule)) by by vm_compute.
  split; [exact Hrun|].
  destruct (no_change_reported_is_no_change sampleBarrier sampleNoLoop
              sampleIsWorkItem sampleUpdate 3 sampleCalmModule "kernel"
              (<["kernel" := [[Other 0; Call (Some "scale")]]]> sampleCalmModule))
    as [H _].
  exact (H sampleSAA Hrun).
Defined.

Lemma change_reported_is_change_witness :
  ranked sampleModule sampleRank = true ∧
  runOnFunction sampleBarrier sampleNoLoop sampleIsWorkItem sampleUpdate
    10 sampleModule sampleSAA "kernel" = Some (true, sampleFunctionOutput) ∧
  sampleFunctionOutput ≠ sampleModule.
Proof.
  assert (Hrun : runOnFunction sampleBarrier sampleNoLoop sampleIsWorkItem
                   sampleUpdate 10 sampleModule sampleSAA "kernel"
                 = Some (true, sampleFunctionOutput)) by by vm_compute.
  split_and!; [reflexivity|exact Hrun|].
  destruct (change_reported_is_change sampleBarrier sampleNoLoop sampleIsWorkItem
              sampleUpdate 10 sampleModule sampleSAA "kernel" sampleRank
              sampleFunctionOutput eq_refl) as [H _].
  exact (H Hrun).
Defined.

Lemma pass_touches_only_the_function_witness :
  runOnFunction sampleBarrier sampleNoLoop sampleIsWorkItem sampleUpdate
    10 sampleModule sampleSAA "kernel" = Some (true, sampleFunctionOutput) ∧
  sampleFunctionOutput !! "helper" = sampleModule !! "helper" ∧
  length (getBody sampleModule "kernel")
    ≤ length (getBody sampleFunctionOutput "kernel").
Proof.
  assert (Hrun : runOnFunction sampleBarrier sampleNoLoop sampleIsWorkItem
                   sampleUpdate 10 sampleModule sampleSAA "kernel"
                 = Some (true, sampleFunctionOutput)) by by vm_compute.
  split; [exact Hrun|].
  destruct (pass_touches_only_the_function sampleBarrier sampleNoLoop
              sampleIsWorkItem sampleUpdate 10 sampleModule sampleSAA "kernel"
              true sampleFunctionOutput Hrun) as [Hoff Hlen].
  split; [|exact Hlen]. apply Hoff. discriminate.
Defined.

Lemma loop_handle_in_sync_witness :
  inlineCallsInLoop sampleBarrier sampleUpdate 10 sampleModule "kernel"
    {| getBlocks := [1] |} {["helper"; "inner"; "sync"]} sampleSAA
    = Some (true, sampleLoopOutput, {| getBlocks := [1; 2; 3] |}) ∧
  {| getBlocks := [1; 2; 3] |}
    = sampleUpdate (getBody sampleLoopOutput "kernel") (hd 0 [1]).
Proof.
  assert (Hrun : inlineCallsInLoop sampleBarrier sampleUpdate 10 sampleModule
                   "kernel" {| getBlocks := [1] |} {["helper"; "inner"; "sync"]}
                   sampleSAA
                 = Some (true, sampleLoopOutput, {| getBlocks := [1; 2; 3] |}))
    by by vm_compute.
  split; [exact Hrun|].
  apply (loop_handle_in_sync sampleBarrier sampleUpdate 10 sampleModule "kernel"
           {| getBlocks := [1] |} {["helper"; "inner"; "sync"]} sampleSAA
           true sampleLoopOutput {| getBlocks := [1; 2; 3] |} Hrun).
Defined.

Lemma pass_calls_nothing_new_witness :
  runOnFunction sampleBarrier sampleNoLoop sampleIsWorkItem sampleUpdate
    10 sampleModule sampleSAA "kernel" = Some (true, sampleFunctionOutput) ∧
  ∀ g, calls sampleFunctionOutput "kernel" g →
       g = sampleBarrier ∨ reaches sampleModule "kernel" g.
Proof.
  assert (Hrun : runOnFunction sampleBarrier sampleNoLoop sampleIsWorkItem
                   sampleUpdate 10 sampleModule sampleSAA "kernel"
                 = Some (true, sampleFunctionOutput)) by by vm_compute.
  split; [exact Hrun|].
  apply (pass_calls_nothing_new sampleBarrier sampleNoLoop sampleIsWorkItem
           sampleUpdate 10 sampleModule sampleSAA "kernel" true
           sampleFunctionOutput Hrun).
Defined.

Lemma pass_keeps_call_graph_ranked_witness :
  ranked sampleModule sampleRank = true ∧
  getBody sampleModule sampleBarrier = [] ∧
  runOnFunction sampleBarrier sampleNoLoop sampleIsWorkItem sampleUpdate
    10 sampleModule sampleSAA "kernel" = Some (true, sampleFunctionOutput) ∧
  ranked sampleFunctionOutput (rankAbove sampleBarrier sampleRank) = true.
Proof.
  assert (Hrun : runOnFunction sampleBarrier sampleNoLoop sampleIsWorkItem
                   sampleUpdate 10 sampleModule sampleSAA "kernel"
                 = Some (true, sampleFunctionOutput)) by by vm_compute.
  split_and!; [reflexivity|reflexivity|exact Hrun|].
  apply (pass_keeps_call_graph_ranked sampleBarrier sampleNoLoop sampleIsWorkItem
           sampleUpdate 10 sampleModule sampleSAA "kernel" sampleRank true
           sampleFunctionOutput eq_refl eq_refl Hrun).
Defined.

Lemma pass_keeps_other_instructions_witness :
  runOnFunction sampleBarrier sampleNoLoop sampleIsWorkItem sampleUpdate
    10 sampleModule sampleSAA "kernel" = Some (true, sampleFunctionOutput) ∧
  [Other 0; Other 1; Other 2]
    ⊆+ otherInstructions (concat (getBody sampleFunctionOutput "kernel")).
Proof.
  assert (Hrun : runOnFunction sampleBarrier sampleNoLoop sampleIsWorkItem
                   sampleUpdate 10 sampleModule sampleSAA "kernel"
                 = Some (true, sampleFunctionOutput)) by by vm_compute.
  split; [exact Hrun|].
  apply (pass_keeps_other_instructions sampleBarrier sampleNoLoop sampleIsWorkItem
           sampleUpdate 10 sampleModule sampleSAA "kernel" true
           sampleFunctionOutput Hrun).
Defined.

Lemma kernel_barriers_exposed_witness :
  ranked sampleModule sampleRank = true ∧
  isKernelFunc sampleSAA "kernel" = true ∧
  isSplitterFunc sampleSAA "kernel" = false ∧
  sampleNoLoop (getBody sampleModule "kernel") = None ∧
  runOnFunction sampleBarrier sampleNoLoop sampleIsWorkItem sampleUpdate
    10 sampleModule sampleSAA "kernel" = Some (true, sampleFunctionOutput) ∧
  ∀ g, calls sampleFunctionOutput "kernel" g →
       g = sampleBarrier ∨ ¬ hits sampleFunctionOutput sampleSAA g.
Proof.
  assert (Hrun : runOnFunction sampleBarrier sampleNoLoop sampleIsWorkItem
                   sampleUpdate 10 sampleModule sampleSAA "kernel"
                 = Some (true, sampleFunctionOutput)) by by vm_compute.
  split_and!; [reflexivity|reflexivity|reflexivity|reflexivity|exact Hrun|].
  apply (kernel_barriers_exposed sampleBarrier sampleNoLoop sampleIsWorkItem
           sampleUpdate 10 sampleModule sampleSAA "kernel" sampleRank true
           sampleFunctionOutput eq_refl eq_refl eq_refl eq_refl Hrun).
Defined.


Lemma pass_lowers_direct_barriers_witness :
  isKernelFunc sampleSAA "kernel" = true ∧
  sampleNoLoop (getBody sampleDirectModule "kernel") = None ∧
  (∀ g, calls sampleDirectModule "kernel" g → hits sampleDirectModule sampleSAA g →
        isSplitterFunc sampleSAA g = true) ∧
  runOnFunction sampleBarrier sampleNoLoop sampleIsWorkItem sampleUpdate
    5 sampleDirectModule sampleSAA "kernel"
    = Some (true, <["kernel" := [[Call (Some sampleBarrier)]]]> sampleDirectModule) ∧
  getBody (<["kernel" := [[Call (Some sampleBarrier)]]]> sampleDirectModule) "kernel"
    = lowerBody sampleBarrier sampleSAA (getBody sampleDirectModule "kernel").
Proof.
  assert (Hdirect : ∀ g, calls sampleDirectModule "kernel" g →
                      hits sampleDirectModule sampleSAA g →
                      isSplitterFunc sampleSAA g = true).
  { intros g Hg _. unfold calls in Hg.
    change (callees (concat (getBody sampleDirectModule "kernel")))
      with ["sync"] in Hg.
    apply list_elem_of_singleton in Hg. by subst. }
  assert (Hrun : runOnFunction sampleBarrier sampleNoLoop sampleIsWorkItem
                   sampleUpdate 5 sampleDirectModule sampleSAA "kernel"
                 = Some (true, <["kernel" := [[Call (Some sampleBarrier)]]]>
                                 sampleDirectModule)) by by vm_compute.
  split_and!; [reflexivity|reflexivity|exact Hdirect|exact Hrun|].
  apply (pass_lowers_direct_barriers sampleBarrier sampleNoLoop sampleIsWorkItem
           sampleUpdate 5 sampleDirectModule sampleSAA "kernel" true _
           eq_refl eq_refl Hdirect Hrun).
Defined.

Lemma finder_flag_tells_membership_witness :
  fillTransitiveSplitterCallers_Function 3 sampleModule sampleSAA "inner" {["helper"]}
    = Some (true, {["helper"; "inner"; "sync"]}) ∧
  ({["helper"]} : gset string) ⊆ {["helper"; "inner"; "sync"]} ∧
  "inner" ∈ ({["helper"; "inner"; "sync"]} : gset string).
Proof.
  assert (E : fillTransitiveSplitterCallers_Function 3 sampleModule sampleSAA
                "inner" {["helper"]}
              = Some (true, {["helper"; "inner"; "sync"]})) by by vm_compute.
  split; [exact E|].
  destruct (finder_flag_tells_membership sampleModule sampleSAA) as [H _].
  destruct (H 3 "inner" {["helper"]} true _ E) as (Hsub & Hflag & _).
  split; [exact Hsub|]. by apply Hflag.
Defined.

Lemma pass_terminates_witness :
  ranked sampleModule sampleRank = true ∧
  ∃ n0, ∀ fuel, n0 ≤ fuel →
    is_Some (runOnFunction sampleBarrier sampleGetLoop sampleIsWorkItem sampleUpdate
               fuel sampleModule sampleSAA "kernel") ∧
    is_Some (run sampleBarrier sampleGetLoop sampleIsWorkItem sampleUpdate
               fuel sampleModule (Some sampleSAA) "kernel").
Proof.
  split; [reflexivity|].
  apply (pass_terminates sampleBarrier sampleGetLoop sampleIsWorkItem sampleUpdate
           sampleModule sampleSAA "kernel" sampleRank eq_refl).
Defined.

Lemma finder_diverges_on_recursion_witness :
  (∀ f, sampleOnCycle f →
        isSplitterFunc sampleSAA f = false ∧
        ∃ g, calls sampleRecursiveModule f g ∧ sampleOnCycle g) ∧
  isKernelFunc sampleSAA "kernel" = true ∧
  sampleNoLoop (getBody sampleRecursiveModule "kernel") = None ∧
  sampleOnCycle "kernel" ∧
  ∀ fuel, runOnFunction sampleBarrier sampleNoLoop sampleIsWorkItem sampleUpdate
            fuel sampleRecursiveModule sampleSAA "kernel" = None.
Proof.
  assert (Hcyc : ∀ f, sampleOnCycle f →
            isSplitterFunc sampleSAA f = false ∧
            ∃ g, calls sampleRecursiveModule f g ∧ sampleOnCycle g).
  { intros f [->| ->]; (split; [reflexivity|]); exists "spin";
      (split; [|by right]); unfold calls.
    - apply list_elem_of_here.
    - apply list_elem_of_further, list_elem_of_here. }
  split_and!; [exact Hcyc|reflexivity|reflexivity|by left|].
  intros fuel.
  destruct (finder_diverges_on_recursion sampleBarrier sampleNoLoop sampleIsWorkItem
              sampleUpdate sampleRecursiveModule sampleSAA sampleOnCycle Hcyc)
    as (_ & _ & H).
  apply H; [reflexivity|reflexivity|by left].
Defined.
